(** * govarnam: dictionary search, token-tree matcher and pattern lookups

    A shallow embedding of [govarnam/dictionary.go].  The SQLite store is
    modelled by its two tables as lists of rows in scan order; every query
    of the source is modelled by the rows it selects, its ORDER BY and its
    LIMIT.  Go panics (index out of range) are modelled by [None].

    Text is modelled at the level of characters: one [ascii] of a [string]
    stands for one character of a TEXT value, which is what LIKE's [_] and
    LENGTH() count. *)

From Stdlib Require Import ZArith Ascii String List Lia Permutation Sorted.
From stdpp Require Import base numbers list option sorting strings.

Local Open Scope string_scope.
Local Open Scope list_scope.

(** ** Data model *)

(** [Suggestion{Word, Weight, LearnedOn}]; the two numeric fields are Go
    [int]s. *)
Record Suggestion := mkSuggestion {
  Word : string;
  Weight : Z;
  LearnedOn : Z
}.

(** [PatternDictionarySuggestion{Sug, Length}] *)
Record PatternDictionarySuggestion := mkPatternDictionarySuggestion {
  Sug : Suggestion;
  Length : Z
}.

(** [DictionaryResult{sugs, exactMatch, longestMatchPosition}] *)
Record DictionaryResult := mkDictionaryResult {
  sugs : list Suggestion;
  exactMatch : bool;
  longestMatchPosition : Z
}.

(** The fields of [Symbol] and [Token] that [getFromDictionary] reads.
    Both structs are declared outside [dictionary.go]. *)
Record Symbol := mkSymbol { value1 : string }.

Record Token := mkToken {
  tokenType : Z;
  token : list Symbol;
  position : Z
}.

(** Rows of [words (id integer primary key, word text unique,
    confidence integer default 1, learned_on integer)].  [learned_on] has
    no default and may be NULL. *)
Record words_row := mkWord {
  w_id : Z;
  w_word : string;
  w_confidence : Z;
  w_learned_on : option Z
}.

(** Rows of [patterns_content (pattern text, word_id integer,
    learned integer DEFAULT 0)]. *)
Record patterns_row := mkPattern {
  p_pattern : string;
  p_word_id : Z;
  p_learned : Z
}.

(** What [varnam.dictConn] gives access to. *)
Record Varnam := mkVarnam {
  words : list words_row;
  patterns_content : list patterns_row
}.

(** ** Go [int] arithmetic (64 bit, wrapping) *)

Definition int_min : Z := (- 2 ^ 63)%Z.
Definition int_max : Z := (2 ^ 63 - 1)%Z.

Definition wrap_int (z : Z) : Z := ((z + 2 ^ 63) mod 2 ^ 64 - 2 ^ 63)%Z.

Definition int_add (a b : Z) : Z := wrap_int (a + b).

(** ** The LIKE operator of SQLite

    [%] matches any run of characters (also the empty one), [_] matches
    exactly one character, every other character of the pattern matches
    itself, upper and lower case ASCII letters being identified (the
    source never sets [case_sensitive_like], and no query has an ESCAPE
    clause). *)

Definition tolower (c : ascii) : ascii :=
  let n := nat_of_ascii c in
  if (65 <=? n)%nat && (n <=? 90)%nat then ascii_of_nat (n + 32) else c.

Definition is_percent (c : ascii) : bool := Ascii.eqb c "%".
Definition is_underscore (c : ascii) : bool := Ascii.eqb c "_".

Fixpoint like_match (pat s : string) : bool :=
  match pat with
  | EmptyString => match s with EmptyString => true | String _ _ => false end
  | String c pat' =>
      if is_percent c then
        (fix any (s : string) : bool :=
           like_match pat' s
           || match s with
              | EmptyString => false
              | String _ s' => any s'
              end) s
      else
        match s with
        | EmptyString => false
        | String d s' =>
            (is_underscore c || Ascii.eqb (tolower c) (tolower d))
            && like_match pat' s'
        end
  end.

(** [sql_like x y] is the SQL expression [x LIKE y]. *)
Definition sql_like (x y : string) : bool := like_match y x.

(** ** ORDER BY key DESC LIMIT n

    SQL leaves the order of rows with equal keys to the engine.  The model
    sorts the selected rows with a merge sort; the properties below hold
    for any order of equal keys. *)

Definition desc {A} (key : A -> Z) : relation A := fun a b => (key b <= key a)%Z.

Global Instance desc_dec {A} (key : A -> Z) : RelDecision (desc key).
Proof. intros a b. unfold desc. apply _. Defined.

Definition order_by_desc_limit {A} (key : A -> Z) (n : nat) (rows : list A) : list A :=
  take n (merge_sort (desc key) rows).

(** [SELECT ... FROM table WHERE cond ORDER BY key DESC LIMIT n] *)
Definition sql_select {A} (cond : A -> bool) (key : A -> Z) (n : nat) (table : list A)
    : list A :=
  order_by_desc_limit key n (List.filter cond table).

(** ** searchDictionary *)

(** [learned_on > 0]: a comparison with NULL is not true. *)
Definition learned_on_pos (r : words_row) : bool :=
  match w_learned_on r with
  | Some z => (0 <? z)%Z
  | None => false
  end.

(** The WHERE clause that the source concatenates:
    [word LIKE ?1 OR word LIKE ?2 ... OR word LIKE ?n], followed, when
    [all] is set, by [AND learned_on > 0].  AND binds tighter than OR, so
    the trailing condition [last_and] belongs to the last LIKE only. *)
Fixpoint where_likes (vals : list string) (last_and : bool) (word : string) : bool :=
  match vals with
  | [] => false
  | [v] => sql_like word v && last_and
  | v :: vs => sql_like word v || where_likes vs last_and word
  end.

(** [rows.Scan(&item.Word, &item.Weight, &item.LearnedOn)]: a NULL
    [learned_on] makes Scan fail on the third column, the error is not
    looked at and [item.LearnedOn] keeps its zero value. *)
Definition scan_word (r : words_row) : Suggestion :=
  mkSuggestion (w_word r) (w_confidence r) (default 0%Z (w_learned_on r)).

(** The bound parameters: [words[0]] first, then the others, each with
    ["_%"] appended when [all] is set. *)
Definition like_arg (all : bool) (word : string) : string :=
  if all then word +:+ "_%" else word.

Definition searchDictionary (varnam : Varnam) (search : list string) (all : bool)
  : option (list Suggestion) :=
  match search !! 0%nat with
  | None => None
  | Some w0 =>
      let vals := like_arg all w0 :: map (like_arg all) (drop 1 search) in
      let cond r :=
        where_likes vals (if all then learned_on_pos r else true) (w_word r) in
      Some (map scan_word (sql_select cond w_confidence 5 (words varnam)))
  end.

(** ** Plain comparisons, to state what LIKE computes *)

Fixpoint string_forallb (f : ascii -> bool) (s : string) : bool :=
  match s with
  | EmptyString => true
  | String c s' => f c && string_forallb f s'
  end.

(** No character of [s] is a wildcard of LIKE. *)
Definition literal (s : string) : bool :=
  string_forallb (fun c => negb (is_percent c || is_underscore c)) s.

(** No character of [s] is an upper case ASCII letter: case folding
    leaves [s] as it is. *)
Definition caseless (s : string) : bool :=
  string_forallb (fun c => Ascii.eqb (tolower c) c) s.

(** Equality up to the case of ASCII letters. *)
Fixpoint eq_nocase (a b : string) : bool :=
  match a, b with
  | EmptyString, EmptyString => true
  | String c a', String d b' => Ascii.eqb (tolower c) (tolower d) && eq_nocase a' b'
  | _, _ => false
  end.

(** [q] is a prefix of [s], up to the case of ASCII letters. *)
Fixpoint prefix_nocase (q s : string) : bool :=
  match q with
  | EmptyString => true
  | String c q' =>
      match s with
      | EmptyString => false
      | String d s' => Ascii.eqb (tolower c) (tolower d) && prefix_nocase q' s'
      end
  end.

(** [b] is [a] with something, possibly nothing, appended. *)
Definition extends (a b : string) : Prop := exists sfx, b = a +:+ sfx.

(** ** Loops

    [for j, x := range xs { body }] where the body may panic: the range
    expression is evaluated once, so the loop runs over the elements that
    [xs] had when the loop was entered, whatever the body appends. *)
Fixpoint for_range {A St : Type} (body : St -> nat -> A -> option St)
    (j : nat) (xs : list A) (st : St) : option St :=
  match xs with
  | [] => Some st
  | x :: rest =>
      match body st j x with
      | None => None
      | Some st' => for_range body (S j) rest st'
      end
  end.

Section Dictionary.

(** Constants of the package that are declared outside [dictionary.go]. *)
Variable VARNAM_TOKEN_SYMBOL : Z.
Variable VARNAM_LEARNT_WORD_MIN_CONFIDENCE : Z.

(** ** getFromDictionary *)

(** One call of [searchDictionary] made by the matcher: the index [i] of
    the token being processed, the index [j] of the in-flight entry whose
    iteration made the call, and the string looked up.  The list of these
    events is observation only: nothing of the matcher reads it. *)
Record search_event := mkEvent {
  ev_token : nat;
  ev_branch : nat;
  ev_query : string
}.

(** The local variables of [getFromDictionary]. *)
Record matcher := mkMatcher {
  results : list Suggestion;
  foundPosition : Z;
  foundDictWords : list Suggestion;
  tempFoundDictWords : list Suggestion;
  searched : list search_event
}.

Definition set_results (st : matcher) (r : list Suggestion) : matcher :=
  mkMatcher r (foundPosition st) (foundDictWords st) (tempFoundDictWords st) (searched st).

Definition add_temp (st : matcher) (s : Suggestion) : matcher :=
  mkMatcher (results st) (foundPosition st) (foundDictWords st)
            (tempFoundDictWords st ++ [s]) (searched st).

Definition add_event (st : matcher) (e : search_event) : matcher :=
  mkMatcher (results st) (foundPosition st) (foundDictWords st)
            (tempFoundDictWords st) (searched st ++ [e]).

(** Line 127: [Suggestion{possibility.value1, 0, 0}]. *)
Definition seed_of (possibility : Symbol) : Suggestion :=
  mkSuggestion (value1 possibility) 0 0.

(** Lines 125-130: the body of the seeding loop. *)
Definition seed (st : matcher) (possibility : Symbol) : matcher :=
  let sug := seed_of possibility in
  add_temp (set_results st (results st ++ [sug])) sug.

(** Lines 153-169: the body of the loop over the possibilities of [t],
    for the in-flight entry [j] whose word was [till]. *)
Definition try_possibility (varnam : Varnam) (i j : nat) (till : string)
    (st : matcher) (k : nat) (possibility : Symbol) : option matcher :=
  if (k =? 0)%nat then Some st
  else
    let newTill := till +:+ value1 possibility in
    match searchDictionary varnam [newTill] false with
    | None => None
    | Some searchResults =>
        let st := add_event st (mkEvent i j newTill) in
        match searchResults with
        | hit :: _ =>
            let st := add_temp st hit in
            Some (set_results st (results st ++ [mkSuggestion newTill 0 0]))
        | [] => Some st
        end
    end.

(** Lines 132-170: the body of the loop over the in-flight entries. *)
Definition extend_candidate (varnam : Varnam) (i : nat) (t : Token)
    (st : matcher) (j : nat) (result : Suggestion) : option matcher :=
  if (Weight result =? -1)%Z then Some st
  else
    let till := Word result in
    match token t !! 0%nat with
    | None => None
    | Some firstToken =>
        match results st !! j with
        | None => None
        | Some cur =>
            let extended :=
              mkSuggestion (Word cur +:+ value1 firstToken) (Weight cur) (LearnedOn cur) in
            let st := set_results st (<[j := extended]> (results st)) in
            match searchDictionary varnam [Word extended] false with
            | None => None
            | Some searchResults =>
                let st := add_event st (mkEvent i j (Word extended)) in
                let st :=
                  match searchResults with
                  | hit :: _ => add_temp st hit
                  | [] =>
                      set_results st
                        (<[j := mkSuggestion (Word extended) (-1) (LearnedOn extended)]>
                           (results st))
                  end in
                for_range (try_possibility varnam i j till) 0 (token t) st
            end
        end
    end.

(** Line 122: the found list of a token is a fresh variable of the loop
    body. *)
Definition fresh_temp (st : matcher) : matcher :=
  mkMatcher (results st) (foundPosition st) (foundDictWords st) [] (searched st).

(** Lines 121-177: the body of the loop over the tokens. *)
Definition process_token (varnam : Varnam) (st : matcher) (i : nat) (t : Token)
    : option matcher :=
  let st := fresh_temp st in
  let inner :=
    if (tokenType t =? VARNAM_TOKEN_SYMBOL)%Z then
      if (i =? 0)%nat then Some (fold_left seed (token t) st)
      else for_range (extend_candidate varnam i t) 0 (results st) st
    else Some st in
  match inner with
  | None => None
  | Some st =>
      if (0 <? i)%nat && (0 <? length (tempFoundDictWords st))%nat then
        Some (mkMatcher (results st) (position t) (tempFoundDictWords st)
                        (tempFoundDictWords st) (searched st))
      else Some st
  end.

Definition matcher_init : matcher := mkMatcher [] 0 [] [] [].

(** The state of the matcher after the loop over [tokens]. *)
Definition run_tokens (varnam : Varnam) (tokens : list Token) : option matcher :=
  for_range (process_token varnam) 0 tokens matcher_init.

Definition getFromDictionary (varnam : Varnam) (tokens : list Token)
    : option DictionaryResult :=
  match run_tokens varnam tokens with
  | None => None
  | Some st =>
      match tokens !! (length tokens - 1)%nat with
      | None => None
      | Some lastToken =>
          Some (mkDictionaryResult (foundDictWords st)
                  (foundPosition st =? position lastToken)%Z
                  (foundPosition st))
      end
  end.

(** ** getMoreFromDictionary *)
Definition getMoreFromDictionary (varnam : Varnam) (sugs : list Suggestion)
    : option (list (list Suggestion)) :=
  for_range (fun acc (_ : nat) sug =>
               match searchDictionary varnam [Word sug] true with
               | None => None
               | Some searchResults => Some (acc ++ [searchResults])
               end) 0 sugs [].

(** ** The pattern dictionary *)

(** [pattern LIKE ?] bound to [pattern+"%"]. *)
Definition pattern_trails (pattern : string) (pr : patterns_row) : bool :=
  sql_like (p_pattern pr) (pattern +:+ "%").

(** [id IN (SELECT word_id FROM patterns_content WHERE pattern LIKE ?)] *)
Definition id_in_trailing (varnam : Varnam) (pattern : string) (r : words_row) : bool :=
  existsb (fun pr => pattern_trails pattern pr && (p_word_id pr =? w_id r)%Z)
          (patterns_content varnam).

(** [rows.Scan(&item.Word, &item.Weight)] and
    [item.Weight += VARNAM_LEARNT_WORD_MIN_CONFIDENCE]. *)
Definition scan_trailing (r : words_row) : Suggestion :=
  mkSuggestion (w_word r) (int_add (w_confidence r) VARNAM_LEARNT_WORD_MIN_CONFIDENCE) 0.

Definition getTrailingFromPatternDictionary (varnam : Varnam) (pattern : string)
    : list Suggestion :=
  map scan_trailing
      (sql_select (id_in_trailing varnam pattern) w_confidence 10 (words varnam)).

(** [? LIKE (pts.pattern || '%') OR pattern LIKE ?] bound to [pattern]
    and [pattern+"%"]. *)
Definition pattern_resolves (pattern : string) (pr : patterns_row) : bool :=
  sql_like pattern (p_pattern pr +:+ "%") || sql_like (p_pattern pr) (pattern +:+ "%").

(** [LENGTH(pts.pattern)] *)
Definition pattern_length (pr : patterns_row) : Z := Z.of_nat (String.length (p_pattern pr)).

(** [(SELECT wd.word FROM words wd WHERE wd.id = pts.word_id)] and the
    same for [confidence]: the row of [words] with that id, NULL when
    there is none. *)
Definition word_of_id (varnam : Varnam) (id : Z) : option words_row :=
  List.find (fun r => (w_id r =? id)%Z) (words varnam).

(** [rows.Scan(&item.Length, &item.Sug.Word, &item.Sug.Weight)] followed
    by the addition of the constant.  When the subqueries give NULL, Scan
    stops at the second column and [Word] and [Weight] keep their zero
    values. *)
Definition scan_pattern (varnam : Varnam) (pr : patterns_row) : PatternDictionarySuggestion :=
  match word_of_id varnam (p_word_id pr) with
  | Some r =>
      mkPatternDictionarySuggestion
        (mkSuggestion (w_word r) (int_add (w_confidence r) VARNAM_LEARNT_WORD_MIN_CONFIDENCE) 0)
        (pattern_length pr)
  | None =>
      mkPatternDictionarySuggestion
        (mkSuggestion EmptyString (int_add 0 VARNAM_LEARNT_WORD_MIN_CONFIDENCE) 0)
        (pattern_length pr)
  end.

Definition getFromPatternDictionary (varnam : Varnam) (pattern : string)
    : list PatternDictionarySuggestion :=
  map (scan_pattern varnam)
      (sql_select (pattern_resolves pattern) pattern_length 10 (patterns_content varnam)).

(** [h] is the first row that the exact lookup of [q] returns. *)
Definition first_hit (varnam : Varnam) (q : string) (h : Suggestion) : Prop :=
  exists rest, searchDictionary varnam [q] false = Some (h :: rest).

(** What the pass over the in-flight list for token [t] does to an entry
    [x]: a dead entry is left as it is; a live one gets the first
    possibility of [t] appended, and is marked dead when the lookup of the
    extended word finds nothing. *)
Definition entry_step (varnam : Varnam) (t : Token) (x x' : Suggestion) : Prop :=
  (Weight x = (-1)%Z -> x' = x)
  /\ (Weight x <> (-1)%Z ->
      exists p0,
        token t !! 0%nat = Some p0
        /\ Word x' = Word x +:+ value1 p0
        /\ LearnedOn x' = LearnedOn x
        /\ (Weight x' = Weight x \/ Weight x' = (-1)%Z)
        /\ (searchDictionary varnam [Word x +:+ value1 p0] false = Some [] ->
            Weight x' = (-1)%Z)).

(** The invariant of the loop over the in-flight list (lines 132-170),
    entered in state [st0] for the token [t] of index [i], before the
    iteration of index [j]. *)
Definition cand_inv (varnam : Varnam) (i : nat) (t : Token) (st0 : matcher)
    (j : nat) (s : matcher) : Prop :=
  (forall k x, results st0 !! k = Some x -> j <= k -> results s !! k = Some x)
  /\ (forall k x, results st0 !! k = Some x -> k < j ->
        exists x', results s !! k = Some x' /\ entry_step varnam t x x')
  /\ (exists evs hits,
        searched s = searched st0 ++ evs
        /\ tempFoundDictWords s = tempFoundDictWords st0 ++ hits
        /\ (forall e, e ∈ evs ->
              ev_token e = i /\ ev_branch e < j
              /\ exists x, results st0 !! ev_branch e = Some x /\ Weight x <> (-1)%Z)
        /\ (forall h, h ∈ hits -> exists e, e ∈ evs /\ first_hit varnam (ev_query e) h))
  /\ foundPosition s = foundPosition st0
  /\ foundDictWords s = foundDictWords st0
  /\ (forall k x m p h,
        results st0 !! k = Some x -> k < j -> Weight x <> (-1)%Z ->
        token t !! m = Some p -> m <> 0 ->
        first_hit varnam (Word x +:+ value1 p) h ->
        h ∈ tempFoundDictWords s).

End Dictionary.


(** ** Conditions on the store *)

(** The schema declares [FOREIGN KEY(word_id) REFERENCES words(id)]:
    every row of [patterns_content] names the id of a row of [words]. *)
Definition foreign_keys_ok (varnam : Varnam) : bool :=
  forallb (fun pr => existsb (fun r => (w_id r =? p_word_id pr)%Z) (words varnam))
          (patterns_content varnam).

(** Confidences are not negative, and adding [floor] to one stays within
    a Go [int]. *)
Definition confidences_ok (floor : Z) (varnam : Varnam) : bool :=
  forallb (fun r => (0 <=? w_confidence r)%Z && (w_confidence r + floor <=? int_max)%Z)
          (words varnam).

(** The schema declares [word text unique]: no two rows of [words] hold
    the same word. *)
Definition unique_words (varnam : Varnam) : Prop :=
  NoDup (map w_word (words varnam)).

(** No stored word holds an upper case ASCII letter. *)
Definition caseless_words (varnam : Varnam) : bool :=
  forallb (fun r => caseless (w_word r)) (words varnam).

(** ** What the tokens spell

    The strings obtained by choosing one possibility for every SYMBOL
    token, in order; tokens of other types contribute nothing. *)
Definition spell_token (SYMBOL : Z) (t : Token) (acc : list string) : list string :=
  if (tokenType t =? SYMBOL)%Z
  then flat_map (fun w => map (fun p => w +:+ value1 p) (token t)) acc
  else acc.

Definition spellings (SYMBOL : Z) (tokens : list Token) : list string :=
  fold_left (fun acc t => spell_token SYMBOL t acc) tokens [EmptyString].

(** The string that a choice of possibilities spells. *)
Definition join (choice : list Symbol) : string :=
  fold_left (fun w p => w +:+ value1 p) choice EmptyString.

(** Two states of the matcher that agree on the in-flight list and on
    what was found; the found list of the current token and the log of
    searches are not compared. *)
Definition agree (a b : matcher) : Prop :=
  results a = results b
  /\ foundPosition a = foundPosition b
  /\ foundDictWords a = foundDictWords b.

(** Agreement on every variable of [getFromDictionary]. *)
Definition same_vars (a b : matcher) : Prop :=
  agree a b /\ tempFoundDictWords a = tempFoundDictWords b.

(** Two outcomes of a step that may panic: both panic, or both return
    related states. *)
Definition outcome_rel (R : matcher -> matcher -> Prop) (a b : option matcher) : Prop :=
  match a, b with
  | Some x, Some y => R x y
  | None, None => True
  | _, _ => False
  end.

(** ** Stores and inputs used in the examples *)

Definition ex_store : Varnam :=
  mkVarnam
    [mkWord 1 "ab" 3 None; mkWord 2 "ax" 5 (Some 7%Z); mkWord 3 "b" 9 None;
     mkWord 4 "abc" 2 None; mkWord 5 "axc" 2 (Some 0%Z)]
    [mkPattern "chin" 1 0; mkPattern "china" 2 0; mkPattern "a_c" 3 0].

(** Values for [VARNAM_TOKEN_SYMBOL], for another token type and for
    [VARNAM_LEARNT_WORD_MIN_CONFIDENCE]. *)
Definition ex_symbol : Z := 1.
Definition ex_other : Z := 0.
Definition ex_floor : Z := 30.

Definition ex_tok_ab : Token := mkToken ex_symbol [mkSymbol "a"; mkSymbol "b"] 0.
Definition ex_tok_qxb : Token :=
  mkToken ex_symbol [mkSymbol "q"; mkSymbol "x"; mkSymbol "b"] 1.
Definition ex_tok_c : Token := mkToken ex_symbol [mkSymbol "c"] 2.
Definition ex_tok_star : Token := mkToken ex_other [mkSymbol "*"] 0.
Definition ex_tok_none : Token := mkToken ex_symbol [] 1.
Definition ex_tok_z : Token := mkToken ex_symbol [mkSymbol "z"] 1.
Definition ex_tok_dash : Token := mkToken ex_other [mkSymbol "-"] 3.

(** A store with a negative confidence, one whose only pattern refers to
    no word, and one with the greatest confidence a Go [int] holds. *)
Definition ex_store_negative : Varnam :=
  mkVarnam [mkWord 1 "w" (-50) None] [mkPattern "chin" 1 0].
Definition ex_store_dangling : Varnam :=
  mkVarnam [] [mkPattern "chin" 7 0].
Definition ex_store_greatest : Varnam :=
  mkVarnam [mkWord 1 "w" int_max None] [mkPattern "chin" 1 0].

(** * Properties *)

Global Instance desc_total {A} (key : A -> Z) : Total (desc key).
Proof. intros a b. unfold desc. lia. Qed.

Global Instance desc_trans {A} (key : A -> Z) : Transitive (desc key).
Proof. intros a b c. unfold desc. lia. Qed.


(** ** LIKE *)

Lemma like_percent_all (s : string) : like_match "%" s = true.
Proof.
  induction s as [|c s IH]; [reflexivity|].
  simpl in *. exact IH.
Qed.

Lemma like_literal (q s : string) :
  literal q = true -> like_match q s = eq_nocase q s.
Proof.
  revert s. induction q as [|c q IH]; intros s Hq.
  - destruct s; reflexivity.
  - unfold literal in Hq. simpl in Hq.
    apply andb_prop in Hq as [Hc Hq].
    apply negb_true_iff, orb_false_iff in Hc as [Hp Hu].
    simpl. rewrite Hp. destruct s as [|d s]; [reflexivity|].
    rewrite Hu. simpl. rewrite (IH s Hq). reflexivity.
Qed.

Lemma like_literal_percent (q s : string) :
  literal q = true -> like_match (q +:+ "%") s = prefix_nocase q s.
Proof.
  revert s. induction q as [|c q IH]; intros s Hq.
  - apply like_percent_all.
  - unfold literal in Hq. simpl in Hq.
    apply andb_prop in Hq as [Hc Hq].
    apply negb_true_iff, orb_false_iff in Hc as [Hp Hu].
    simpl. rewrite Hp. destruct s as [|d s]; [reflexivity|].
    rewrite Hu. simpl. rewrite (IH s Hq). reflexivity.
Qed.

Lemma like_literal_underscore_percent (q s : string) :
  literal q = true ->
  like_match (q +:+ "_%") s
  = prefix_nocase q s && (String.length q <? String.length s)%nat.
Proof.
  revert s. induction q as [|c q IH]; intros s Hq.
  - destruct s as [|d s]; [reflexivity|].
    change (like_match (EmptyString +:+ "_%") (String d s)) with (like_match "%" s).
    rewrite like_percent_all. reflexivity.
  - unfold literal in Hq. simpl in Hq.
    apply andb_prop in Hq as [Hc Hq].
    apply negb_true_iff, orb_false_iff in Hc as [Hp Hu].
    simpl. rewrite Hp. destruct s as [|d s]; [reflexivity|].
    rewrite Hu. simpl. rewrite (IH s Hq).
    change (S (String.length q) <? S (String.length s))%nat
      with (String.length q <? String.length s)%nat.
    rewrite andb_assoc. reflexivity.
Qed.

Lemma eq_nocase_caseless (a b : string) :
  caseless a = true -> caseless b = true ->
  eq_nocase a b = true <-> a = b.
Proof.
  revert b. induction a as [|c a IH]; intros [|d b] Ha Hb; simpl; try (split; congruence).
  unfold caseless in Ha, Hb. simpl in Ha, Hb.
  apply andb_prop in Ha as [Hc Ha]. apply andb_prop in Hb as [Hd Hb].
  apply Ascii.eqb_eq in Hc, Hd. rewrite Hc, Hd.
  rewrite andb_true_iff, Ascii.eqb_eq, (IH b Ha Hb).
  split; [intros [-> ->]; reflexivity | intros [= -> ->]; split; reflexivity].
Qed.

(** ** ORDER BY ... DESC LIMIT *)

Section order_by.
Context {A : Type} (key : A -> Z) (n : nat).
Implicit Types rows : list A.

Lemma order_by_elem rows x :
  x ∈ order_by_desc_limit key n rows -> x ∈ rows.
Proof.
  unfold order_by_desc_limit. intros Hx.
  rewrite <- (merge_sort_Permutation (desc key) rows).
  rewrite <- (take_drop n (merge_sort (desc key) rows)).
  apply elem_of_app. left. exact Hx.
Qed.

Lemma order_by_length rows :
  length (order_by_desc_limit key n rows) = Nat.min n (length rows).
Proof.
  unfold order_by_desc_limit. rewrite length_take.
  rewrite (Permutation_length (merge_sort_Permutation (desc key) rows)).
  reflexivity.
Qed.

Lemma order_by_sorted rows :
  StronglySorted (desc key) (order_by_desc_limit key n rows).
Proof.
  unfold order_by_desc_limit.
  apply (StronglySorted_app_1_l _ _ (drop n (merge_sort (desc key) rows))).
  rewrite take_drop. apply StronglySorted_merge_sort; apply _.
Qed.

(** A selected row is returned unless the limit is reached by rows
    that rank at least as high. *)
Lemma order_by_complete rows x :
  x ∈ rows ->
  x ∈ order_by_desc_limit key n rows
  \/ (length (order_by_desc_limit key n rows) = n
      /\ forall y, y ∈ order_by_desc_limit key n rows -> (key x <= key y)%Z).
Proof.
  unfold order_by_desc_limit. intros Hx.
  set (l := merge_sort (desc key) rows).
  assert (Hs : StronglySorted (desc key) (take n l ++ drop n l)).
  { rewrite take_drop. apply StronglySorted_merge_sort; apply _. }
  assert (Hl : x ∈ take n l ++ drop n l).
  { rewrite take_drop. unfold l. rewrite merge_sort_Permutation. exact Hx. }
  apply elem_of_app in Hl as [Hl | Hl]; [left; exact Hl | right].
  split.
  - apply length_take_le.
    destruct (Nat.le_gt_cases n (length l)) as [Hle | Hgt]; [exact Hle|].
    rewrite drop_ge in Hl by lia. inversion Hl.
  - intros y Hy. exact (StronglySorted_app_1_elem_of _ _ _ _ _ Hs Hy Hl).
Qed.

Lemma order_by_all rows :
  length rows <= n -> order_by_desc_limit key n rows ≡ₚ rows.
Proof.
  intros Hle. unfold order_by_desc_limit.
  rewrite take_ge.
  - apply merge_sort_Permutation.
  - rewrite (Permutation_length (merge_sort_Permutation (desc key) rows)). exact Hle.
Qed.
End order_by.

(** ** SELECT *)

Section select.
Context {A : Type} (cond : A -> bool) (key : A -> Z) (n : nat).
Implicit Types table : list A.

Lemma elem_of_filter_bool table x :
  x ∈ List.filter cond table <-> x ∈ table /\ cond x = true.
Proof. rewrite !list_elem_of_In. apply filter_In. Qed.

Lemma sql_select_elem table x :
  x ∈ sql_select cond key n table -> x ∈ table /\ cond x = true.
Proof.
  unfold sql_select. intros Hx.
  apply elem_of_filter_bool. exact (order_by_elem key n _ x Hx).
Qed.

Lemma sql_select_length table :
  length (sql_select cond key n table) <= n.
Proof. unfold sql_select. rewrite order_by_length. lia. Qed.

Lemma sql_select_sorted table :
  StronglySorted (desc key) (sql_select cond key n table).
Proof. apply order_by_sorted. Qed.

Lemma sql_select_complete table x :
  x ∈ table -> cond x = true ->
  x ∈ sql_select cond key n table
  \/ (length (sql_select cond key n table) = n
      /\ forall y, y ∈ sql_select cond key n table -> (key x <= key y)%Z).
Proof.
  intros Hx Hc. apply order_by_complete.
  apply elem_of_filter_bool. split; assumption.
Qed.
End select.

Lemma map_fmap {A B} (f : A -> B) (l : list A) : map f l = f <$> l.
Proof. reflexivity. Qed.

(** ** searchDictionary *)

Lemma where_likes_some vals b w :
  where_likes vals b w = true -> exists v, v ∈ vals /\ sql_like w v = true.
Proof.
  induction vals as [|v vs IH]; simpl; [discriminate|].
  destruct vs as [|v' vs].
  - intros [H _]%andb_prop. exists v. split; [left | exact H].
  - intros [H | H]%orb_prop.
    + exists v. split; [left | exact H].
    + destruct (IH H) as (u & Hu & Hl). exists u. split; [right; exact Hu | exact Hl].
Qed.

Lemma where_likes_true vals w :
  where_likes vals true w = true <-> exists v, v ∈ vals /\ sql_like w v = true.
Proof.
  split; [apply where_likes_some|].
  induction vals as [|v vs IH]; intros (u & Hu & Hl).
  - inversion Hu.
  - simpl. destruct vs as [|v' vs].
    + apply list_elem_of_singleton in Hu as ->. rewrite Hl. reflexivity.
    + apply elem_of_cons in Hu as [-> | Hu]; [rewrite Hl; reflexivity|].
      rewrite IH; [apply orb_true_r | exists u; split; assumption].
Qed.

Lemma head_drop_1 {A} (l : list A) (x : A) : l !! 0%nat = Some x -> x :: drop 1 l = l.
Proof. destruct l; cbn; [discriminate | intros [= ->]; reflexivity]. Qed.

Lemma exact_vals search w0 :
  search !! 0%nat = Some w0 ->
  like_arg false w0 :: map (like_arg false) (drop 1 search) = search.
Proof.
  intros H. rewrite <- (head_drop_1 search w0 H) at 2.
  unfold like_arg. rewrite map_id. reflexivity.
Qed.

Lemma searchDictionary_None varnam search all :
  searchDictionary varnam search all = None <-> search = [].
Proof.
  unfold searchDictionary. destruct search; simpl; split; congruence.
Qed.

Lemma searchDictionary_singleton varnam w all :
  searchDictionary varnam [w] all
  = Some (map scan_word
            (sql_select (fun r => sql_like (w_word r) (like_arg all w)
                                  && (if all then learned_on_pos r else true))
                        w_confidence 5 (words varnam))).
Proof. reflexivity. Qed.

Lemma sql_like_literal c w :
  literal c = true -> sql_like w c = eq_nocase c w.
Proof. apply like_literal. Qed.

Lemma sql_like_exact c w :
  literal c = true -> caseless c = true -> caseless w = true ->
  sql_like w c = true <-> w = c.
Proof.
  intros Hl Hc Hw. rewrite (sql_like_literal c w Hl).
  rewrite (eq_nocase_caseless c w Hc Hw). split; congruence.
Qed.

Lemma scan_word_sorted rows :
  StronglySorted (desc w_confidence) rows ->
  StronglySorted (desc Weight) (map scan_word rows).
Proof.
  rewrite map_fmap. apply StronglySorted_fmap. intros x y H. exact H.
Qed.

(** C5 (amended): with [all] false and a non-empty list of candidates,
    [searchDictionary] returns, scanned, exactly the rows of [words] whose
    word matches one of the candidates under LIKE, whatever their
    confidence and [learned_on]: every returned suggestion is such a row,
    and such a row is left out only when the limit of 5 is reached by rows
    of at least its confidence.  The result is ordered by confidence
    descending and has at most 5 entries.  For a candidate without [%] and
    [_], matching under LIKE is equality up to the case of ASCII letters. *)
Theorem searchDictionary_exact_mode (varnam : Varnam) (search : list string) :
  search <> [] ->
  exists rs,
    searchDictionary varnam search false = Some rs
    /\ (forall s, s ∈ rs ->
          exists r c, r ∈ words varnam /\ s = scan_word r
                      /\ c ∈ search /\ sql_like (w_word r) c = true)
    /\ (forall r c, r ∈ words varnam -> c ∈ search -> sql_like (w_word r) c = true ->
          scan_word r ∈ rs
          \/ (length rs = 5 /\ forall s, s ∈ rs -> (w_confidence r <= Weight s)%Z))
    /\ StronglySorted (desc Weight) rs
    /\ length rs <= 5
    /\ (forall c w, literal c = true -> sql_like w c = eq_nocase c w).
Proof.
  intros Hne. unfold searchDictionary.
  destruct (search !! 0%nat) as [w0|] eqn:H0;
    [|destruct search; [congruence | discriminate]].
  rewrite (exact_vals search w0 H0).
  eexists. split; [reflexivity|].
  split; [|split; [|split; [|split]]].
  - intros s Hs. rewrite map_fmap in Hs.
    apply list_elem_of_fmap in Hs as (r & -> & Hr).
    apply sql_select_elem in Hr as [Hr Hc].
    apply where_likes_true in Hc as (c & Hc & Hl).
    exists r, c. repeat split; assumption.
  - intros r c Hr Hc Hl.
    destruct (sql_select_complete
                (fun r => where_likes search true (w_word r)) w_confidence 5
                (words varnam) r Hr) as [Hin | [Hlen Hmin]].
    + apply where_likes_true. exists c. split; assumption.
    + left. rewrite map_fmap. apply list_elem_of_fmap_2. exact Hin.
    + right. split; [rewrite length_map; exact Hlen|].
      intros s Hs. rewrite map_fmap in Hs.
      apply list_elem_of_fmap in Hs as (y & -> & Hy). exact (Hmin y Hy).
  - apply scan_word_sorted, sql_select_sorted.
  - rewrite length_map. apply sql_select_length.
  - apply sql_like_literal.
Qed.

(** ** Loops *)

Section for_range.
Context {A St : Type} (body : St -> nat -> A -> option St).

Lemma for_range_app j xs ys st :
  for_range body j (xs ++ ys) st
  = match for_range body j xs st with
    | None => None
    | Some st' => for_range body (j + length xs) ys st'
    end.
Proof.
  revert j st. induction xs as [|x xs IH]; intros j st; simpl.
  - rewrite Nat.add_0_r. reflexivity.
  - destruct (body st j x) as [st1|]; [|reflexivity].
    rewrite IH. replace (S j + length xs) with (j + S (length xs)) by lia.
    reflexivity.
Qed.

(** An invariant of the loop holds when the loop returns. *)
Lemma for_range_inv (P : nat -> St -> Prop) xs j st st' :
  P j st ->
  (forall k x s s', xs !! k = Some x -> P (j + k) s ->
                    body s (j + k) x = Some s' -> P (S (j + k)) s') ->
  for_range body j xs st = Some st' ->
  P (j + length xs) st'.
Proof.
  revert j st. induction xs as [|x xs IH]; intros j st H0 Hstep Hrun; simpl in *.
  - injection Hrun as <-. rewrite Nat.add_0_r. exact H0.
  - destruct (body st j x) as [st1|] eqn:Hb; [|discriminate].
    replace (j + S (length xs)) with (S j + length xs) by lia.
    apply (IH (S j) st1); [| |exact Hrun].
    + specialize (Hstep 0 x st st1 eq_refl). rewrite Nat.add_0_r in Hstep.
      apply Hstep; assumption.
    + intros k y s s' Hk Hp Hs.
      replace (S j + k) with (j + S k) in * by lia.
      apply (Hstep (S k) y s s'); assumption.
Qed.

(** A loop whose body returns under the invariant returns. *)
Lemma for_range_total (P : nat -> St -> Prop) xs j st :
  P j st ->
  (forall k x s, xs !! k = Some x -> P (j + k) s ->
                 exists s', body s (j + k) x = Some s' /\ P (S (j + k)) s') ->
  exists st', for_range body j xs st = Some st' /\ P (j + length xs) st'.
Proof.
  revert j st. induction xs as [|x xs IH]; intros j st H0 Hstep; simpl.
  - exists st. rewrite Nat.add_0_r. split; [reflexivity | exact H0].
  - destruct (Hstep 0 x st eq_refl) as (st1 & Hb & H1).
    { rewrite Nat.add_0_r. exact H0. }
    rewrite Nat.add_0_r in Hb, H1. rewrite Hb.
    replace (j + S (length xs)) with (S j + length xs) by lia.
    apply IH; [exact H1|].
    intros k y s Hk Hp.
    replace (S j + k) with (j + S k) in * by lia.
    apply (Hstep (S k) y s); assumption.
Qed.
End for_range.

Lemma append_empty_r (s : string) : s +:+ EmptyString = s.
Proof.
  induction s as [|c s IH]; [reflexivity|].
  change (String c (s +:+ EmptyString) = String c s). rewrite IH. reflexivity.
Qed.

Lemma append_assoc (a b c : string) : (a +:+ b) +:+ c = a +:+ (b +:+ c).
Proof.
  induction a as [|x a IH]; [reflexivity|].
  change (String x ((a +:+ b) +:+ c) = String x (a +:+ (b +:+ c))).
  rewrite IH. reflexivity.
Qed.

Lemma extends_refl (a : string) : extends a a.
Proof. exists EmptyString. symmetry. apply append_empty_r. Qed.

Lemma extends_trans (a b c : string) : extends a b -> extends b c -> extends a c.
Proof.
  intros [u ->] [v ->]. exists (u +:+ v). apply append_assoc.
Qed.

Lemma extends_append (a b : string) : extends a (a +:+ b).
Proof. exists b. reflexivity. Qed.

(** ** The matcher *)

Section matcher.
Variable SYMBOL : Z.
Variable varnam : Varnam.

Lemma seeds_spec ps st :
  results (fold_left seed ps st) = results st ++ map seed_of ps
  /\ tempFoundDictWords (fold_left seed ps st) = tempFoundDictWords st ++ map seed_of ps
  /\ foundPosition (fold_left seed ps st) = foundPosition st
  /\ foundDictWords (fold_left seed ps st) = foundDictWords st
  /\ searched (fold_left seed ps st) = searched st.
Proof.
  revert st. induction ps as [|p ps IH]; intros st; simpl.
  - rewrite !app_nil_r. repeat split.
  - destruct (IH (seed st p)) as (-> & -> & -> & -> & ->). simpl.
    rewrite <- !app_assoc. repeat split.
Qed.

Lemma exact_lookup_some q :
  exists rs, searchDictionary varnam [q] false = Some rs.
Proof. eexists. reflexivity. Qed.

(** The loop over the other possibilities: it appends fresh entries,
    logs searches of branch [j], and puts the first hit of every
    successful lookup in the found list. *)
Lemma try_possibilities_spec i j till ps k0 st st' :
  for_range (try_possibility varnam i j till) k0 ps st = Some st' ->
  exists new evs hits,
    results st' = results st ++ new
    /\ searched st' = searched st ++ evs
    /\ tempFoundDictWords st' = tempFoundDictWords st ++ hits
    /\ foundPosition st' = foundPosition st
    /\ foundDictWords st' = foundDictWords st
    /\ (forall e, e ∈ evs -> ev_token e = i /\ ev_branch e = j)
    /\ (forall h, h ∈ hits -> exists e, e ∈ evs /\ first_hit varnam (ev_query e) h)
    /\ (forall k p h, ps !! k = Some p -> k0 + k <> 0 ->
                      first_hit varnam (till +:+ value1 p) h -> h ∈ hits).
Proof.
  revert k0 st. induction ps as [|p ps IH]; intros k0 st Hrun; simpl in Hrun.
  - injection Hrun as <-. exists [], [], []. rewrite !app_nil_r.
    split_and!; try reflexivity.
    + intros e He. inversion He.
    + intros h Hh. inversion Hh.
    + intros k q h Hk. inversion Hk.
  - destruct (try_possibility varnam i j till st k0 p) as [st1|] eqn:Hb; [|discriminate].
    destruct (IH _ _ Hrun) as (new & evs & hits & Hr & Hs & Ht & Hp & Hf & He & Hh & Hc).
    unfold try_possibility in Hb.
    destruct (k0 =? 0)%nat eqn:Hk0.
    { injection Hb as <-. exists new, evs, hits. split_and!; try assumption.
      intros k q h Hk Hne Hq. destruct k as [|k].
      - apply Nat.eqb_eq in Hk0. lia.
      - apply (Hc k q h); [exact Hk | lia | exact Hq]. }
    destruct (searchDictionary varnam [till +:+ value1 p] false)
      as [[|hit rest]|] eqn:Hq; [| |discriminate]; injection Hb as <-; simpl in *.
    + exists new, (mkEvent i j (till +:+ value1 p) :: evs), hits.
      rewrite Hs, <- app_assoc. split_and!; try assumption; try reflexivity.
      * intros e [-> | H]%elem_of_cons; [split; reflexivity | apply (He _ H)].
      * intros h Hin. destruct (Hh h Hin) as (e & Hin' & Hfh).
        exists e. split; [right; exact Hin' | exact Hfh].
      * intros k q h Hk Hne [rest Hq']. destruct k as [|k].
        -- simpl in Hk. injection Hk as <-. congruence.
        -- apply (Hc k q h); [exact Hk | lia | exists rest; exact Hq'].
    + exists (mkSuggestion (till +:+ value1 p) 0 0 :: new),
             (mkEvent i j (till +:+ value1 p) :: evs), (hit :: hits).
      rewrite Hr, Hs, Ht, <- !app_assoc. split_and!; try assumption; try reflexivity.
      * intros e [-> | H]%elem_of_cons; [split; reflexivity | apply (He _ H)].
      * intros h [-> | Hin]%elem_of_cons.
        -- exists (mkEvent i j (till +:+ value1 p)). split; [left | exists rest; exact Hq].
        -- destruct (Hh h Hin) as (e & Hin' & Hfh).
           exists e. split; [right; exact Hin' | exact Hfh].
      * intros k q h Hk Hne [rest' Hq']. destruct k as [|k].
        -- simpl in Hk. injection Hk as <-. rewrite Hq in Hq'.
           injection Hq' as -> _. left.
        -- right. apply (Hc k q h); [exact Hk | lia | exists rest'; exact Hq'].
Qed.

Lemma try_possibilities_total i j till ps k0 st :
  exists st', for_range (try_possibility varnam i j till) k0 ps st = Some st'.
Proof.
  destruct (for_range_total (try_possibility varnam i j till) (fun _ _ => True)
              ps k0 st I) as (st' & H & _); [|exists st'; exact H].
  intros k p s _ _. unfold try_possibility.
  destruct (k0 + k =? 0)%nat; [eauto|].
  rewrite searchDictionary_singleton.
  destruct (map scan_word _); eauto.
Qed.

Lemma extend_candidate_dead i t st j result :
  Weight result = (-1)%Z -> extend_candidate varnam i t st j result = Some st.
Proof. intros H. unfold extend_candidate. rewrite H. reflexivity. Qed.

(** One iteration of the loop over the in-flight list, for a live
    entry. *)
Lemma extend_candidate_live i t st j result st' :
  Weight result <> (-1)%Z ->
  extend_candidate varnam i t st j result = Some st' ->
  exists p0 cur w new evs hits,
    token t !! 0%nat = Some p0
    /\ results st !! j = Some cur
    /\ results st'
       = <[j := mkSuggestion (Word cur +:+ value1 p0) w (LearnedOn cur)]> (results st)
         ++ new
    /\ (w = Weight cur \/ w = (-1)%Z)
    /\ (searchDictionary varnam [Word cur +:+ value1 p0] false = Some [] -> w = (-1)%Z)
    /\ searched st' = searched st ++ evs
    /\ tempFoundDictWords st' = tempFoundDictWords st ++ hits
    /\ foundPosition st' = foundPosition st
    /\ foundDictWords st' = foundDictWords st
    /\ (forall e, e ∈ evs -> ev_token e = i /\ ev_branch e = j)
    /\ (forall h, h ∈ hits -> exists e, e ∈ evs /\ first_hit varnam (ev_query e) h)
    /\ (forall k p h, token t !! k = Some p -> k <> 0 ->
                      first_hit varnam (Word result +:+ value1 p) h -> h ∈ hits).
Proof.
  intros Hlive Hrun. unfold extend_candidate in Hrun.
  apply Z.eqb_neq in Hlive. rewrite Hlive in Hrun.
  destruct (token t !! 0%nat) as [p0|] eqn:Hp0; [|discriminate].
  destruct (results st !! j) as [cur|] eqn:Hcur; [|discriminate].
  cbn [Word LearnedOn Weight] in Hrun.
  destruct (searchDictionary varnam [Word cur +:+ value1 p0] false)
    as [[|hit rest]|] eqn:Hq; [| |discriminate].
  - apply try_possibilities_spec in Hrun
      as (new & evs & hits & Hr & Hs & Ht & Hp & Hf & He & Hh & Hc).
    simpl in Hr, Hs, Ht, Hp, Hf.
    exists p0, cur, (-1)%Z, new, (mkEvent i j (Word cur +:+ value1 p0) :: evs), hits.
    rewrite list_insert_insert_eq in Hr. rewrite <- app_assoc in Hs.
    split_and!; try assumption; try reflexivity.
    + right. reflexivity.
    + intros e [-> | H]%elem_of_cons; [split; reflexivity | apply (He _ H)].
    + intros h Hin. destruct (Hh h Hin) as (e & Hin' & Hfh).
      exists e. split; [right; exact Hin' | exact Hfh].
  - apply try_possibilities_spec in Hrun
      as (new & evs & hits & Hr & Hs & Ht & Hp & Hf & He & Hh & Hc).
    simpl in Hr, Hs, Ht, Hp, Hf.
    exists p0, cur, (Weight cur), new,
           (mkEvent i j (Word cur +:+ value1 p0) :: evs), (hit :: hits).
    rewrite <- app_assoc in Hs, Ht.
    split_and!; try assumption; try reflexivity.
    + left. reflexivity.
    + intros H. congruence.
    + intros e [-> | H]%elem_of_cons; [split; reflexivity | apply (He _ H)].
    + intros h [-> | Hin]%elem_of_cons.
      * exists (mkEvent i j (Word cur +:+ value1 p0)).
        split; [left | exists rest; exact Hq].
      * destruct (Hh h Hin) as (e & Hin' & Hfh).
        exists e. split; [right; exact Hin' | exact Hfh].
    + intros k p h Hk Hne Hfh. right. apply (Hc k p h Hk); [lia | exact Hfh].
Qed.

Lemma extend_candidate_total i t st j result :
  token t <> [] -> j < length (results st) ->
  exists st', extend_candidate varnam i t st j result = Some st'.
Proof.
  intros Ht Hj. unfold extend_candidate.
  destruct (Weight result =? -1)%Z; [eauto|].
  destruct (token t) as [|p0 ps] eqn:Htok; [congruence|]. cbn [lookup list_lookup].
  destruct (lookup_lt_is_Some_2 (results st) j Hj) as [cur ->].
  rewrite searchDictionary_singleton.
  apply try_possibilities_total.
Qed.

Lemma cand_inv_init i t st0 : cand_inv varnam i t st0 0 st0.
Proof.
  unfold cand_inv. split_and!; try reflexivity.
  - intros k x Hk _. exact Hk.
  - intros k x _ Hlt. lia.
  - exists [], []. rewrite !app_nil_r. split_and!; try reflexivity.
    + intros e He. inversion He.
    + intros h Hh. inversion Hh.
  - intros k x m p h _ Hlt. lia.
Qed.

Lemma cand_inv_step i t st0 j x s s' :
  results st0 !! j = Some x ->
  cand_inv varnam i t st0 j s ->
  extend_candidate varnam i t s j x = Some s' ->
  cand_inv varnam i t st0 (S j) s'.
Proof.
  intros Hx (H1 & H2 & (evs & hits & Hs & Ht & He & Hh) & Hp & Hf & Hc) Hrun.
  assert (Hsj : results s !! j = Some x) by (apply H1; [exact Hx | lia]).
  destruct (Z.eq_dec (Weight x) (-1)%Z) as [Hd | Hl].
  - rewrite (extend_candidate_dead i t s j x Hd) in Hrun. injection Hrun as <-.
    unfold cand_inv. split_and!; try assumption.
    + intros k y Hk Hle. apply H1; [exact Hk | lia].
    + intros k y Hk Hlt. destruct (decide (k = j)) as [-> | Hne].
      * rewrite Hx in Hk. injection Hk as <-. exists x.
        split; [exact Hsj | split; [reflexivity | contradiction]].
      * apply H2; [exact Hk | lia].
    + exists evs, hits. split_and!; try assumption.
      intros e Hin. destruct (He e Hin) as (Ha & Hb & Hcx).
      split_and!; [exact Ha | lia | exact Hcx].
    + intros k y m p h Hk Hlt Hlive. destruct (decide (k = j)) as [-> | Hne].
      * rewrite Hx in Hk. injection Hk as <-. contradiction.
      * apply (Hc k y m p h Hk); [lia | exact Hlive].
  - destruct (extend_candidate_live i t s j x s' Hl Hrun)
      as (p0 & cur & w & new & evs' & hits' & Hp0 & Hcur & Hr & Hw & Hwd
          & Hs' & Ht' & Hp' & Hf' & He' & Hh' & Hc').
    rewrite Hsj in Hcur. injection Hcur as <-.
    assert (Hlen : j < length (results s)) by (eapply lookup_lt_Some; exact Hsj).
    unfold cand_inv. split_and!.
    + intros k y Hk Hle. rewrite Hr. apply lookup_app_l_Some.
      rewrite list_lookup_insert_ne by lia. apply H1; [exact Hk | lia].
    + intros k y Hk Hlt. destruct (decide (k = j)) as [-> | Hne].
      * rewrite Hx in Hk. injection Hk as <-.
        exists (mkSuggestion (Word x +:+ value1 p0) w (LearnedOn x)). split.
        -- rewrite Hr. apply lookup_app_l_Some.
           apply list_lookup_insert_eq. exact Hlen.
        -- split; [contradiction|]. intros _. exists p0.
           split_and!; try reflexivity; assumption.
      * destruct (H2 k y Hk) as (y' & Hy' & Hstep); [lia|].
        exists y'. split; [|exact Hstep].
        rewrite Hr. apply lookup_app_l_Some.
        rewrite list_lookup_insert_ne by lia. exact Hy'.
    + exists (evs ++ evs'), (hits ++ hits').
      rewrite Hs', Hs, Ht', Ht, !app_assoc. split_and!; try reflexivity.
      * intros e [Hin | Hin]%elem_of_app.
        -- destruct (He e Hin) as (Ha & Hb & Hcx).
           split_and!; [exact Ha | lia | exact Hcx].
        -- destruct (He' e Hin) as (Ha & Hb).
           split_and!; [exact Ha | lia | exists x; rewrite Hb; split; assumption].
      * intros h [Hin | Hin]%elem_of_app.
        -- destruct (Hh h Hin) as (e & Hin' & Hfh). exists e.
           split; [apply elem_of_app; left; exact Hin' | exact Hfh].
        -- destruct (Hh' h Hin) as (e & Hin' & Hfh). exists e.
           split; [apply elem_of_app; right; exact Hin' | exact Hfh].
    + congruence.
    + congruence.
    + intros k y m p h Hk Hlt Hlive Hm Hne Hfh. rewrite Ht'. apply elem_of_app.
      destruct (decide (k = j)) as [-> | Hkj].
      * rewrite Hx in Hk. injection Hk as <-. right.
        apply (Hc' m p h Hm Hne Hfh).
      * left. apply (Hc k y m p h Hk); [lia | assumption..].
Qed.

(** The loop over the in-flight list establishes its invariant for
    every entry the list had when the loop was entered. *)
Lemma candidates_spec i t st0 s' :
  for_range (extend_candidate varnam i t) 0 (results st0) st0 = Some s' ->
  cand_inv varnam i t st0 (length (results st0)) s'.
Proof.
  intros Hrun.
  apply (for_range_inv (extend_candidate varnam i t) (cand_inv varnam i t st0)
           (results st0) 0 st0 s'); [apply cand_inv_init | | exact Hrun].
  intros k x s s1 Hk Hinv Hb. simpl in *.
  exact (cand_inv_step i t st0 k x s s1 Hk Hinv Hb).
Qed.

Lemma candidates_total i t st0 :
  token t <> [] ->
  exists s', for_range (extend_candidate varnam i t) 0 (results st0) st0 = Some s'.
Proof.
  intros Ht.
  destruct (for_range_total (extend_candidate varnam i t)
              (fun _ s => length (results st0) <= length (results s))
              (results st0) 0 st0 (le_n _)) as (s' & H & _); [|exists s'; exact H].
  intros k x s Hk Hlen. simpl.
  assert (Hk' : k < length (results s)).
  { apply lookup_lt_Some in Hk. lia. }
  destruct (extend_candidate_total i t s k x Ht Hk') as (s1 & Hs1).
  exists s1. split; [exact Hs1|].
  destruct (Z.eq_dec (Weight x) (-1)%Z) as [Hd | Hl].
  - rewrite (extend_candidate_dead i t s k x Hd) in Hs1. injection Hs1 as <-. exact Hlen.
  - destruct (extend_candidate_live i t s k x s1 Hl Hs1)
      as (p0 & cur & w & new & evs' & hits' & _ & _ & Hr & _).
    rewrite Hr, length_app, length_insert. lia.
Qed.

(** The three ways a token is processed. *)
Lemma process_token_cases st i t st' :
  process_token SYMBOL varnam st i t = Some st' ->
  (tokenType t <> SYMBOL
   /\ results st' = results st /\ searched st' = searched st
   /\ foundPosition st' = foundPosition st /\ foundDictWords st' = foundDictWords st)
  \/ (tokenType t = SYMBOL /\ i = 0
      /\ results st' = results st ++ map seed_of (token t)
      /\ searched st' = searched st
      /\ foundPosition st' = foundPosition st /\ foundDictWords st' = foundDictWords st)
  \/ (tokenType t = SYMBOL /\ 0 < i
      /\ exists s1,
          cand_inv varnam i t (fresh_temp st) (length (results st)) s1
          /\ results st' = results s1 /\ searched st' = searched s1
          /\ ((tempFoundDictWords s1 = []
               /\ foundPosition st' = foundPosition st
               /\ foundDictWords st' = foundDictWords st)
              \/ (tempFoundDictWords s1 <> []
                  /\ foundPosition st' = position t
                  /\ foundDictWords st' = tempFoundDictWords s1))).
Proof.
  unfold process_token. fold (fresh_temp st).
  destruct (tokenType t =? SYMBOL)%Z eqn:Hty.
  - apply Z.eqb_eq in Hty. destruct (i =? 0)%nat eqn:Hi.
    + apply Nat.eqb_eq in Hi. subst i. simpl. intros [= <-]. right. left.
      destruct (seeds_spec (token t) (fresh_temp st)) as (Hr & _ & Hp & Hf & Hs).
      split_and!; try assumption; reflexivity.
    + apply Nat.eqb_neq in Hi. intros Hrun. right. right.
      split; [exact Hty | split; [lia|]].
      destruct (for_range (extend_candidate varnam i t) 0 (results (fresh_temp st))
                  (fresh_temp st)) as [s1|] eqn:Hloop; [|discriminate].
      pose proof (candidates_spec i t (fresh_temp st) s1 Hloop) as Hinv.
      exists s1. split; [exact Hinv|].
      destruct Hinv as (_ & _ & _ & Hp & Hf & _).
      replace (0 <? i)%nat with true in Hrun by (symmetry; apply Nat.ltb_lt; lia).
      destruct (tempFoundDictWords s1) as [|h hs] eqn:Htemp; simpl in Hrun;
        injection Hrun as <-; simpl.
      * split_and!; try reflexivity. left. split_and!; [reflexivity | exact Hp | exact Hf].
      * split_and!; try reflexivity. right. split_and!; [discriminate | reflexivity..].
  - apply Z.eqb_neq in Hty. simpl. rewrite andb_false_r. intros [= <-]. left.
    split_and!; [exact Hty | reflexivity..].
Qed.

Lemma entry_step_extends t x x' : entry_step varnam t x x' -> extends (Word x) (Word x').
Proof.
  intros [Hd Hl]. destruct (Z.eq_dec (Weight x) (-1)%Z) as [H | H].
  - rewrite (Hd H). apply extends_refl.
  - destruct (Hl H) as (p0 & _ & -> & _). apply extends_append.
Qed.

(** What processing one token does to the in-flight list, the log and
    the found set, whatever the token. *)
Lemma process_token_step st i t st' :
  process_token SYMBOL varnam st i t = Some st' ->
  (forall k x, results st !! k = Some x ->
     exists x', results st' !! k = Some x'
                /\ (Weight x = (-1)%Z -> x' = x)
                /\ extends (Word x) (Word x'))
  /\ exists evs,
      searched st' = searched st ++ evs
      /\ (forall e, e ∈ evs ->
            ev_token e = i
            /\ exists x, results st !! ev_branch e = Some x /\ Weight x <> (-1)%Z)
      /\ (forall h, h ∈ foundDictWords st' ->
            h ∈ foundDictWords st
            \/ exists e, e ∈ evs /\ first_hit varnam (ev_query e) h).
Proof.
  intros Hrun.
  destruct (process_token_cases st i t st' Hrun)
    as [(_ & Hr & Hs & _ & Hf) | [(_ & _ & Hr & Hs & _ & Hf)
        | (_ & _ & s1 & Hinv & Hr & Hs & Hfound)]].
  - split.
    + intros k x Hk. exists x. rewrite Hr.
      split_and!; [exact Hk | reflexivity | apply extends_refl].
    + exists []. rewrite app_nil_r, Hf. split_and!; [exact Hs | | auto].
      intros e He. inversion He.
  - split.
    + intros k x Hk. exists x. rewrite Hr.
      split_and!; [apply lookup_app_l_Some; exact Hk | reflexivity | apply extends_refl].
    + exists []. rewrite app_nil_r, Hf. split_and!; [exact Hs | | auto].
      intros e He. inversion He.
  - destruct Hinv as (_ & H2 & (evs & hits & Hs1 & Ht1 & He & Hh) & _ & _ & _).
    simpl in H2, Hs1, Ht1, He. split.
    + intros k x Hk. destruct (H2 k x Hk) as (x' & Hx' & Hstep).
      { eapply lookup_lt_Some. exact Hk. }
      exists x'. rewrite Hr.
      split_and!; [exact Hx' | apply Hstep | eapply entry_step_extends; exact Hstep].
    + exists evs. rewrite Hs, Hs1. split_and!; [reflexivity | |].
      * intros e Hin. destruct (He e Hin) as (Ha & _ & Hb). split; assumption.
      * intros h Hin. destruct Hfound as [(_ & _ & Hf) | (_ & _ & Hf)].
        -- left. rewrite <- Hf. exact Hin.
        -- right. rewrite Hf, Ht1 in Hin. apply (Hh h Hin).
Qed.

(** What processing a SYMBOL token after the first does to an
    in-flight entry, and what it finds from the entry's siblings. *)
Lemma process_token_symbol st i t st' :
  0 < i -> tokenType t = SYMBOL ->
  process_token SYMBOL varnam st i t = Some st' ->
  forall k x, results st !! k = Some x ->
    exists x', results st' !! k = Some x'
      /\ entry_step varnam t x x'
      /\ (Weight x <> (-1)%Z ->
          forall m p h, token t !! m = Some p -> m <> 0 ->
            first_hit varnam (Word x +:+ value1 p) h ->
            h ∈ foundDictWords st' /\ foundPosition st' = position t).
Proof.
  intros Hi Hty Hrun k x Hk.
  destruct (process_token_cases st i t st' Hrun)
    as [(Hn & _) | [(_ & Hz & _) | (_ & _ & s1 & Hinv & Hr & Hs & Hfound)]];
    [congruence | lia |].
  destruct Hinv as (_ & H2 & _ & _ & _ & Hc). simpl in H2, Hc.
  assert (Hlt : k < length (results st)) by (eapply lookup_lt_Some; exact Hk).
  destruct (H2 k x Hk Hlt) as (x' & Hx' & Hstep).
  exists x'. rewrite Hr. split_and!; [exact Hx' | exact Hstep |].
  intros Hlive m p h Hm Hne Hfh.
  pose proof (Hc k x m p h Hk Hlt Hlive Hm Hne Hfh) as Hin.
  destruct Hfound as [(Hnil & _) | (_ & Hp & Hf)].
  - rewrite Hnil in Hin. inversion Hin.
  - rewrite Hf. split; assumption.
Qed.

(** *** Whole runs *)

Lemma run_tokens_app pre post :
  run_tokens SYMBOL varnam (pre ++ post)
  = match run_tokens SYMBOL varnam pre with
    | None => None
    | Some s => for_range (process_token SYMBOL varnam) (length pre) post s
    end.
Proof. unfold run_tokens. rewrite for_range_app. reflexivity. Qed.

(** Every search so far belongs to a token already processed, and
    every found suggestion is the first hit of a logged search. *)
Lemma run_tokens_inv tokens s :
  run_tokens SYMBOL varnam tokens = Some s ->
  (forall e, e ∈ searched s -> ev_token e < length tokens)
  /\ (forall h, h ∈ foundDictWords s ->
        exists e, e ∈ searched s /\ first_hit varnam (ev_query e) h).
Proof.
  intros Hrun.
  apply (for_range_inv (process_token SYMBOL varnam)
           (fun n s =>
              (forall e, e ∈ searched s -> ev_token e < n)
              /\ (forall h, h ∈ foundDictWords s ->
                    exists e, e ∈ searched s /\ first_hit varnam (ev_query e) h))
           tokens 0 matcher_init s); [| |exact Hrun].
  - split; intros x Hx; inversion Hx.
  - intros k t s0 s1 _ [Hlog Hfound] Hstep. simpl in *.
    destruct (process_token_step s0 k t s1 Hstep) as (_ & evs & Hs & He & Hf).
    split.
    + intros e Hin. rewrite Hs in Hin. apply elem_of_app in Hin as [Hin | Hin].
      * specialize (Hlog e Hin). lia.
      * destruct (He e Hin) as [-> _]. lia.
    + intros h Hin. destruct (Hf h Hin) as [Hold | (e & Hin' & Hfh)].
      * destruct (Hfound h Hold) as (e & Hin' & Hfh).
        exists e. rewrite Hs. split; [apply elem_of_app; left; exact Hin' | exact Hfh].
      * exists e. rewrite Hs. split; [apply elem_of_app; right; exact Hin' | exact Hfh].
Qed.

(** A dead entry stays where it is, as it is, and no later search
    comes from it; the other entries keep their indices. *)
Lemma dead_entry_frozen j dead n post s s' :
  Weight dead = (-1)%Z ->
  results s !! j = Some dead ->
  for_range (process_token SYMBOL varnam) n post s = Some s' ->
  results s' !! j = Some dead
  /\ (forall k x, results s !! k = Some x ->
        exists x', results s' !! k = Some x' /\ extends (Word x) (Word x'))
  /\ exists evs,
      searched s' = searched s ++ evs
      /\ (forall e, e ∈ evs -> n <= ev_token e /\ ev_branch e <> j)
      /\ (forall h, h ∈ foundDictWords s' ->
            h ∈ foundDictWords s
            \/ exists e, e ∈ evs /\ first_hit varnam (ev_query e) h).
Proof.
  intros Hw Hj Hrun.
  pose (P := fun (m : nat) (s1 : matcher) =>
    results s1 !! j = Some dead
    /\ (forall k x, results s !! k = Some x ->
          exists x', results s1 !! k = Some x' /\ extends (Word x) (Word x'))
    /\ exists evs,
        searched s1 = searched s ++ evs
        /\ (forall e, e ∈ evs -> n <= ev_token e /\ ev_branch e <> j)
        /\ (forall h, h ∈ foundDictWords s1 ->
              h ∈ foundDictWords s
              \/ exists e, e ∈ evs /\ first_hit varnam (ev_query e) h)).
  apply (for_range_inv (process_token SYMBOL varnam) P post n s s'); [| |exact Hrun].
  - split_and!; [exact Hj | |].
    + intros k x Hk. exists x. split; [exact Hk | apply extends_refl].
    + exists []. rewrite app_nil_r. split_and!; [reflexivity | | auto].
      intros e He. inversion He.
  - intros k t s0 s1 _ (Hd & Hidx & evs & Hs & He & Hf) Hstep.
    destruct (process_token_step s0 (n + k) t s1 Hstep) as (H1 & evs1 & Hs1 & He1 & Hf1).
    split_and!.
    + destruct (H1 j dead Hd) as (x' & Hx' & Hsame & _).
      rewrite (Hsame Hw) in Hx'. exact Hx'.
    + intros i x Hi. destruct (Hidx i x Hi) as (x0 & Hx0 & Hext0).
      destruct (H1 i x0 Hx0) as (x1 & Hx1 & _ & Hext1).
      exists x1. split; [exact Hx1 | eapply extends_trans; eassumption].
    + exists (evs ++ evs1). rewrite Hs1, Hs, app_assoc. split_and!; [reflexivity | |].
      * intros e [Hin | Hin]%elem_of_app; [apply (He e Hin)|].
        destruct (He1 e Hin) as (-> & x & Hx & Hlive).
        split; [lia|]. intros Heq. rewrite Heq, Hd in Hx.
        injection Hx as <-. contradiction.
      * intros h Hin. destruct (Hf1 h Hin) as [Hold | (e & Hin' & Hfh)].
        -- destruct (Hf h Hold) as [Hold' | (e & Hin' & Hfh)]; [left; exact Hold'|].
           right. exists e. split; [apply elem_of_app; left; exact Hin' | exact Hfh].
        -- right. exists e. split; [apply elem_of_app; right; exact Hin' | exact Hfh].
Qed.

Lemma getFromDictionary_run tokens s :
  run_tokens SYMBOL varnam tokens = Some s ->
  tokens <> [] ->
  exists lastToken,
    last tokens = Some lastToken
    /\ getFromDictionary SYMBOL varnam tokens
       = Some (mkDictionaryResult (foundDictWords s)
                 (foundPosition s =? position lastToken)%Z (foundPosition s)).
Proof.
  intros Hrun Hne. unfold getFromDictionary. rewrite Hrun.
  rewrite Nat.sub_1_r, <- last_lookup.
  destruct (last tokens) as [lastToken|] eqn:Hlast.
  - exists lastToken. split; reflexivity.
  - apply last_None in Hlast. contradiction.
Qed.

(** C1: let the in-flight entry [c] of index [j] be live when the
    SYMBOL token [t] (not the first token) is processed, and let the exact
    lookup of [c]'s word extended by the first possibility of [t] find
    nothing.  Then, after [t], the entry is at index [j] with weight -1;
    the first hits of the lookups for the other possibilities of [t] are
    in the found set of that position, and are returned when [t] is the
    last token; and after any further tokens, the entry is still at
    index [j], unchanged, every entry that was in flight is still at its
    index (with its word extended), no search made for a later token
    comes from entry [j], and every returned suggestion is the first hit
    of a search that was not made from entry [j] for a later token. *)
Theorem dead_branch_pruned pre t post j c p0 s1 s_end :
  0 < length pre ->
  tokenType t = SYMBOL ->
  token t !! 0%nat = Some p0 ->
  run_tokens SYMBOL varnam pre = Some s1 ->
  results s1 !! j = Some c ->
  Weight c <> (-1)%Z ->
  searchDictionary varnam [Word c +:+ value1 p0] false = Some [] ->
  run_tokens SYMBOL varnam (pre ++ t :: post) = Some s_end ->
  let dead := mkSuggestion (Word c +:+ value1 p0) (-1) (LearnedOn c) in
  exists s2,
    run_tokens SYMBOL varnam (pre ++ [t]) = Some s2
    /\ results s2 !! j = Some dead
    /\ (forall m p h,
          token t !! m = Some p -> m <> 0 ->
          first_hit varnam (Word c +:+ value1 p) h ->
          h ∈ foundDictWords s2
          /\ exists r, getFromDictionary SYMBOL varnam (pre ++ [t]) = Some r
                       /\ h ∈ sugs r)
    /\ results s_end !! j = Some dead
    /\ (forall k x, results s1 !! k = Some x ->
          exists x', results s_end !! k = Some x' /\ extends (Word x) (Word x'))
    /\ (forall e, e ∈ searched s_end -> ev_branch e = j -> ev_token e <= length pre)
    /\ exists r,
        getFromDictionary SYMBOL varnam (pre ++ t :: post) = Some r
        /\ forall h, h ∈ sugs r ->
             exists e, e ∈ searched s_end
                       /\ first_hit varnam (ev_query e) h
                       /\ ~ (ev_branch e = j /\ length pre < ev_token e).
Proof.
  intros Hpre Hty Hp0 Hs1run Hc Hlive Hmiss Hrun dead.
  pose proof Hrun as Hwhole.
  rewrite run_tokens_app, Hs1run in Hrun. simpl in Hrun.
  destruct (process_token SYMBOL varnam s1 (length pre) t) as [s2|] eqn:Hstep;
    [|discriminate].
  assert (Hs2run : run_tokens SYMBOL varnam (pre ++ [t]) = Some s2).
  { rewrite run_tokens_app, Hs1run. simpl. rewrite Hstep. reflexivity. }
  destruct (process_token_symbol s1 (length pre) t s2 Hpre Hty Hstep j c Hc)
    as (x' & Hx' & [_ Hext] & Hsib).
  destruct (Hext Hlive) as (q0 & Hq0 & Hword & Hlearned & _ & Hmark).
  rewrite Hp0 in Hq0. injection Hq0 as <-.
  assert (Hdead : x' = dead).
  { destruct x' as [w wt lo]. simpl in *. unfold dead.
    rewrite Hword, Hlearned, (Hmark Hmiss). reflexivity. }
  subst x'.
  destruct (dead_entry_frozen j dead (S (length pre)) post s2 s_end eq_refl Hx' Hrun)
    as (HdE & Hidx & evs & Hs & He & _).
  destruct (process_token_step s1 (length pre) t s2 Hstep) as (H1 & evs1 & Hlog2 & He1 & _).
  destruct (run_tokens_inv pre s1 Hs1run) as [Hlog1 _].
  destruct (run_tokens_inv (pre ++ t :: post) s_end Hwhole) as [_ Hfound].
  assert (Hbranch : forall e, e ∈ searched s_end -> ev_branch e = j ->
                              ev_token e <= length pre).
  { intros e Hin Hb. rewrite Hs, Hlog2 in Hin.
    apply elem_of_app in Hin as [Hin | Hin]; [|destruct (He e Hin); contradiction].
    apply elem_of_app in Hin as [Hin | Hin].
    - specialize (Hlog1 e Hin). lia.
    - destruct (He1 e Hin) as [-> _]. lia. }
  exists s2. split_and!; try assumption.
  - intros m p h Hm Hne Hfh.
    destruct (Hsib Hlive m p h Hm Hne Hfh) as [Hin _]. split; [exact Hin|].
    destruct (getFromDictionary_run (pre ++ [t]) s2 Hs2run) as (lt & _ & Hget).
    { intros Heq. apply app_eq_nil in Heq as [_ Heq]. discriminate. }
    eexists. split; [exact Hget | exact Hin].
  - intros k x Hk. destruct (H1 k x Hk) as (x1 & Hx1 & _ & Hext1).
    destruct (Hidx k x1 Hx1) as (x2 & Hx2 & Hext2).
    exists x2. split; [exact Hx2 | eapply extends_trans; eassumption].
  - destruct (getFromDictionary_run (pre ++ t :: post) s_end Hwhole) as (lt & _ & Hget).
    { intros Heq. apply app_eq_nil in Heq as [_ Heq]. discriminate. }
    eexists. split; [exact Hget|]. simpl.
    intros h Hin. destruct (Hfound h Hin) as (e & Hin' & Hfh).
    exists e. split_and!; [exact Hin' | exact Hfh |].
    intros [Hb Hlt]. specialize (Hbranch e Hin' Hb). lia.
Qed.

(** C2: when [getFromDictionary] returns, which needs a non-empty token
    list, the exact-match flag of the result is true if and only if the
    longest matched position of the result equals the position of the
    last token. *)
Theorem exactMatch_iff_last_position tokens r :
  getFromDictionary SYMBOL varnam tokens = Some r ->
  exists lastToken,
    last tokens = Some lastToken
    /\ (exactMatch r = true <-> longestMatchPosition r = position lastToken).
Proof.
  unfold getFromDictionary.
  destruct (run_tokens SYMBOL varnam tokens) as [s|]; [|discriminate].
  rewrite Nat.sub_1_r, <- last_lookup.
  destruct (last tokens) as [lastToken|]; [|discriminate].
  intros [= <-]. exists lastToken. split; [reflexivity|]. simpl.
  apply Z.eqb_eq.
Qed.

(** C9: for an input of exactly one token, whatever its type, its
    possibilities and the store, the matcher returns no suggestion and
    the longest-match position 0; the exact-match flag is the comparison
    of 0 with the token's position, so it is true when that position is
    0. *)
Theorem single_token_result t :
  getFromDictionary SYMBOL varnam [t]
  = Some (mkDictionaryResult [] (0 =? position t)%Z 0)
  /\ (position t = 0%Z ->
      exactMatch <$> getFromDictionary SYMBOL varnam [t] = Some true).
Proof.
  assert (H : getFromDictionary SYMBOL varnam [t]
              = Some (mkDictionaryResult [] (0 =? position t)%Z 0)).
  { unfold getFromDictionary, run_tokens. simpl.
    destruct (process_token SYMBOL varnam matcher_init 0 t) as [s|] eqn:Hstep.
    - destruct (process_token_cases matcher_init 0 t s Hstep)
        as [(_ & _ & _ & Hp & Hf) | [(_ & _ & _ & _ & Hp & Hf) | (_ & Hlt & _)]];
        [| |lia]; rewrite Hp, Hf; reflexivity.
    - unfold process_token in Hstep. simpl in Hstep.
      destruct (tokenType t =? SYMBOL)%Z; discriminate. }
  split; [exact H|]. intros Hpos. rewrite H, Hpos. reflexivity.
Qed.

Lemma process_token_no_candidates st i t :
  results st = [] ->
  0 < i \/ tokenType t <> SYMBOL ->
  exists st',
    process_token SYMBOL varnam st i t = Some st'
    /\ results st' = [] /\ searched st' = searched st
    /\ foundPosition st' = foundPosition st /\ foundDictWords st' = foundDictWords st.
Proof.
  intros Hres Hcase. unfold process_token, fresh_temp. cbn [results]. rewrite Hres.
  destruct (tokenType t =? SYMBOL)%Z eqn:Hty.
  - apply Z.eqb_eq in Hty. destruct Hcase as [Hi | Hn]; [|contradiction].
    replace (i =? 0)%nat with false by (symmetry; apply Nat.eqb_neq; lia).
    simpl. rewrite andb_false_r. eexists. split_and!; reflexivity.
  - simpl. rewrite andb_false_r. eexists. split_and!; reflexivity.
Qed.

Lemma process_token_total st i t :
  (0 < i -> tokenType t = SYMBOL -> token t <> []) ->
  exists st', process_token SYMBOL varnam st i t = Some st'.
Proof.
  intros Hposs. unfold process_token. fold (fresh_temp st).
  destruct (tokenType t =? SYMBOL)%Z eqn:Hty.
  - apply Z.eqb_eq in Hty. destruct (i =? 0)%nat eqn:Hi.
    + destruct (_ && _); eauto.
    + apply Nat.eqb_neq in Hi.
      destruct (candidates_total i t (fresh_temp st)) as (s1 & ->); [apply Hposs; [lia | exact Hty]|].
      destruct (_ && _); eauto.
  - destruct (_ && _); eauto.
Qed.

(** C3 (amended): the seeding step applies to the token of index 0
    only.  When that token is of type SYMBOL, processing it leaves one
    in-flight suggestion per possibility, with the possibility's string as
    word and weight 0, and no lookup has been made.  When it is not, the
    in-flight list stays empty whatever follows, no lookup is ever made,
    and the matcher returns no suggestion. *)
Theorem seeding_at_first_token t rest :
  (tokenType t = SYMBOL ->
   exists s, run_tokens SYMBOL varnam [t] = Some s
             /\ results s = map seed_of (token t)
             /\ Forall (fun x => Weight x = 0%Z) (results s)
             /\ searched s = [])
  /\ (tokenType t <> SYMBOL ->
      exists s lastToken,
        run_tokens SYMBOL varnam (t :: rest) = Some s
        /\ results s = [] /\ searched s = []
        /\ last (t :: rest) = Some lastToken
        /\ getFromDictionary SYMBOL varnam (t :: rest)
           = Some (mkDictionaryResult [] (0 =? position lastToken)%Z 0)).
Proof.
  split; intros Hty.
  - unfold run_tokens. simpl.
    destruct (process_token SYMBOL varnam matcher_init 0 t) as [s|] eqn:Hstep.
    + destruct (process_token_cases matcher_init 0 t s Hstep)
        as [(Hn & _) | [(_ & _ & Hr & Hs & _) | (_ & Hlt & _)]];
        [contradiction | | lia].
      exists s. simpl in Hr, Hs. rewrite Hr.
      split_and!; [reflexivity | reflexivity | | exact Hs].
      apply Forall_forall. intros x Hx. rewrite map_fmap in Hx.
      apply list_elem_of_fmap in Hx as (p & -> & _). reflexivity.
    + destruct (process_token_total matcher_init 0 t) as (s & Hs); [lia | congruence].
  - destruct (for_range_total (process_token SYMBOL varnam)
                (fun _ s => results s = [] /\ searched s = []
                            /\ foundPosition s = 0%Z /\ foundDictWords s = [])
                (t :: rest) 0 matcher_init) as (s & Hrun & Hr & Hs & Hp & Hf).
    { split_and!; reflexivity. }
    { intros k x s Hk (Hr & Hs & Hp & Hf). simpl.
      destruct (process_token_no_candidates s k x Hr)
        as (s' & Hstep & Hr' & Hs' & Hp' & Hf').
      - destruct k as [|k]; [right | left; lia].
        simpl in Hk. injection Hk as <-. exact Hty.
      - exists s'. split; [exact Hstep|]. split_and!; congruence. }
    destruct (getFromDictionary_run (t :: rest) s Hrun) as (lastToken & Hlast & Hget);
      [discriminate|].
    exists s, lastToken. rewrite Hget, Hf, Hp.
    split_and!; [exact Hrun | exact Hr | exact Hs | exact Hlast | reflexivity].
Qed.

(** C10 (amended): [searchDictionary] panics exactly on the empty
    candidate list, where it reads [words[0]]; [getFromDictionary] panics
    on the empty token list, where it reads the last token; and on a
    non-empty token list in which every SYMBOL token after the first has
    at least one possibility, [getFromDictionary] returns: every list
    access it makes is in bounds. *)
Theorem index_safety :
  (forall search all, searchDictionary varnam search all = None <-> search = [])
  /\ getFromDictionary SYMBOL varnam [] = None
  /\ (forall tokens,
        tokens <> [] ->
        (forall i t, tokens !! i = Some t -> 0 < i -> tokenType t = SYMBOL ->
                     token t <> []) ->
        exists r, getFromDictionary SYMBOL varnam tokens = Some r).
Proof.
  split_and!.
  - intros search all. apply searchDictionary_None.
  - reflexivity.
  - intros tokens Hne Hposs.
    destruct (for_range_total (process_token SYMBOL varnam) (fun _ _ => True)
                tokens 0 matcher_init I) as (s & Hrun & _).
    { intros k t s Hk _. simpl.
      destruct (process_token_total s k t (Hposs k t Hk)) as (s' & Hs').
      exists s'. split; [exact Hs' | exact I]. }
    destruct (getFromDictionary_run tokens s Hrun Hne) as (lastToken & _ & Hget).
    eexists. exact Hget.
Qed.
End matcher.

(** ** The pattern dictionary *)

Lemma wrap_int_id (z : Z) : (int_min <= z <= int_max)%Z -> wrap_int z = z.
Proof.
  unfold wrap_int, int_min, int_max. intros H.
  rewrite Z.mod_small by lia. lia.
Qed.

Section patterns.
Variable floor : Z.
Variable varnam : Varnam.

Lemma word_of_id_some id r :
  word_of_id varnam id = Some r -> r ∈ words varnam /\ w_id r = id.
Proof.
  unfold word_of_id. intros H. apply find_some in H as [Hin Hid].
  split; [apply list_elem_of_In; exact Hin | apply Z.eqb_eq; exact Hid].
Qed.

Lemma foreign_key_word pr :
  foreign_keys_ok varnam = true -> pr ∈ patterns_content varnam ->
  exists r, word_of_id varnam (p_word_id pr) = Some r.
Proof.
  unfold foreign_keys_ok. intros Hfk Hpr.
  rewrite forallb_forall in Hfk. apply list_elem_of_In in Hpr.
  specialize (Hfk pr Hpr). apply existsb_exists in Hfk as (r & Hr & Hid).
  unfold word_of_id.
  destruct (List.find (fun r => (w_id r =? p_word_id pr)%Z) (words varnam)) as [r'|] eqn:Hf.
  - exists r'. reflexivity.
  - pose proof (find_none _ _ Hf r Hr) as Hn. simpl in Hn. congruence.
Qed.

Lemma confidence_floor r :
  (int_min <= floor)%Z -> confidences_ok floor varnam = true -> r ∈ words varnam ->
  int_add (w_confidence r) floor = (w_confidence r + floor)%Z
  /\ (floor <= w_confidence r + floor)%Z.
Proof.
  unfold confidences_ok. intros Hfl Hok Hr.
  rewrite forallb_forall in Hok. apply list_elem_of_In in Hr.
  specialize (Hok r Hr). apply andb_prop in Hok as [H0 Hmax].
  apply Z.leb_le in H0, Hmax. split; [|lia].
  unfold int_add. apply wrap_int_id. lia.
Qed.

Lemma getTrailing_elem pattern s :
  s ∈ getTrailingFromPatternDictionary floor varnam pattern ->
  exists r, r ∈ words varnam /\ s = scan_trailing floor r
            /\ id_in_trailing varnam pattern r = true.
Proof.
  unfold getTrailingFromPatternDictionary. rewrite map_fmap.
  intros (r & -> & Hr)%list_elem_of_fmap.
  apply sql_select_elem in Hr as [Hr Hc]. exists r. split_and!; [exact Hr | reflexivity | exact Hc].
Qed.

Lemma getFromPattern_elem pattern x :
  x ∈ getFromPatternDictionary floor varnam pattern ->
  exists pr, pr ∈ patterns_content varnam /\ x = scan_pattern floor varnam pr
             /\ pattern_resolves pattern pr = true.
Proof.
  unfold getFromPatternDictionary. rewrite map_fmap.
  intros (pr & -> & Hpr)%list_elem_of_fmap.
  apply sql_select_elem in Hpr as [Hpr Hc]. exists pr. split_and!; [exact Hpr | reflexivity | exact Hc].
Qed.

Lemma scan_pattern_Length pr : Length (scan_pattern floor varnam pr) = pattern_length pr.
Proof. unfold scan_pattern. destruct (word_of_id _ _); reflexivity. Qed.

(** C8 (amended): in a store whose pattern rows name existing words and whose
    confidences are not negative (and small enough for the sum to fit a
    Go [int]), every suggestion of either pattern read carries the word
    of a row of [words] and, as weight, that row's confidence plus the
    floor, which is at least the floor. *)
Theorem pattern_weight_is_confidence_plus_floor pattern :
  (int_min <= floor)%Z ->
  confidences_ok floor varnam = true ->
  foreign_keys_ok varnam = true ->
  (forall s, s ∈ getTrailingFromPatternDictionary floor varnam pattern ->
     exists r, r ∈ words varnam
               /\ Word s = w_word r
               /\ Weight s = (w_confidence r + floor)%Z
               /\ (floor <= Weight s)%Z)
  /\ (forall x, x ∈ getFromPatternDictionary floor varnam pattern ->
       exists pr r, pr ∈ patterns_content varnam
                    /\ word_of_id varnam (p_word_id pr) = Some r
                    /\ Word (Sug x) = w_word r
                    /\ Weight (Sug x) = (w_confidence r + floor)%Z
                    /\ (floor <= Weight (Sug x))%Z).
Proof.
  intros Hfl Hok Hfk. split.
  - intros s Hs. apply getTrailing_elem in Hs as (r & Hr & -> & _).
    destruct (confidence_floor r Hfl Hok Hr) as [Hadd Hge].
    exists r. simpl. rewrite Hadd. split_and!; [exact Hr | reflexivity.. | exact Hge].
  - intros x Hx. apply getFromPattern_elem in Hx as (pr & Hpr & -> & _).
    destruct (foreign_key_word pr Hfk Hpr) as (r & Hw).
    destruct (word_of_id_some _ r Hw) as [Hr _].
    destruct (confidence_floor r Hfl Hok Hr) as [Hadd Hge].
    exists pr, r. unfold scan_pattern. rewrite Hw. simpl. rewrite Hadd.
    split_and!; [exact Hpr | reflexivity.. | exact Hge].
Qed.

Lemma pattern_resolves_literal pattern pr :
  literal pattern = true -> literal (p_pattern pr) = true ->
  pattern_resolves pattern pr
  = prefix_nocase (p_pattern pr) pattern || prefix_nocase pattern (p_pattern pr).
Proof.
  intros Hp Hs. unfold pattern_resolves, sql_like.
  rewrite (like_literal_percent _ _ Hs), (like_literal_percent _ _ Hp). reflexivity.
Qed.

(** C7 (amended): [getFromPatternDictionary] returns, scanned, exactly
    the rows of [patterns_content] for which [pattern LIKE stored || '%']
    or [stored LIKE pattern || '%'] holds: every returned entry is such a
    row and carries the character length of the stored pattern, and such
    a row is left out only when the limit of 10 is reached by rows whose
    stored pattern is at least as long.  The result is ordered by that
    length descending and has at most 10 entries.  When neither the
    given nor the stored pattern contains [%] or [_], the condition says
    that one is a prefix of the other up to the case of ASCII letters. *)
Theorem getFromPatternDictionary_spec pattern :
  (forall x, x ∈ getFromPatternDictionary floor varnam pattern ->
     exists pr, pr ∈ patterns_content varnam
                /\ x = scan_pattern floor varnam pr
                /\ Length x = Z.of_nat (String.length (p_pattern pr))
                /\ (sql_like pattern (p_pattern pr +:+ "%")
                    || sql_like (p_pattern pr) (pattern +:+ "%")) = true)
  /\ (forall pr, pr ∈ patterns_content varnam ->
        (sql_like pattern (p_pattern pr +:+ "%")
         || sql_like (p_pattern pr) (pattern +:+ "%")) = true ->
        scan_pattern floor varnam pr ∈ getFromPatternDictionary floor varnam pattern
        \/ (length (getFromPatternDictionary floor varnam pattern) = 10
            /\ forall x, x ∈ getFromPatternDictionary floor varnam pattern ->
                         (Z.of_nat (String.length (p_pattern pr)) <= Length x)%Z))
  /\ StronglySorted (desc Length) (getFromPatternDictionary floor varnam pattern)
  /\ length (getFromPatternDictionary floor varnam pattern) <= 10
  /\ (forall pr, literal pattern = true -> literal (p_pattern pr) = true ->
        (sql_like pattern (p_pattern pr +:+ "%")
         || sql_like (p_pattern pr) (pattern +:+ "%"))
        = prefix_nocase (p_pattern pr) pattern || prefix_nocase pattern (p_pattern pr)).
Proof.
  split_and!.
  - intros x Hx. apply getFromPattern_elem in Hx as (pr & Hpr & -> & Hc).
    exists pr. split_and!; [exact Hpr | reflexivity | apply scan_pattern_Length | exact Hc].
  - intros pr Hpr Hc. unfold getFromPatternDictionary.
    destruct (sql_select_complete (pattern_resolves pattern) pattern_length 10
                (patterns_content varnam) pr Hpr Hc) as [Hin | [Hlen Hmin]].
    + left. rewrite map_fmap. apply list_elem_of_fmap_2. exact Hin.
    + right. split; [rewrite length_map; exact Hlen|].
      intros x Hx. rewrite map_fmap in Hx.
      apply list_elem_of_fmap in Hx as (y & -> & Hy).
      rewrite scan_pattern_Length. exact (Hmin y Hy).
  - unfold getFromPatternDictionary. rewrite map_fmap.
    apply (StronglySorted_fmap _ (desc pattern_length)); [|apply sql_select_sorted].
    intros a b Hab. unfold desc in *. rewrite !scan_pattern_Length. exact Hab.
  - unfold getFromPatternDictionary. rewrite length_map. apply sql_select_length.
  - intros pr. apply pattern_resolves_literal.
Qed.
End patterns.

(** ** searchDictionary with [all] set *)

(** With a single candidate the condition on [learned_on] applies to every
    returned row, and the word continues the candidate. *)
Lemma searchDictionary_prefix_single (varnam : Varnam) (w : string) (s : Suggestion) :
  (exists rs, searchDictionary varnam [w] true = Some rs /\ s ∈ rs) ->
  exists r, r ∈ words varnam /\ s = scan_word r
            /\ sql_like (w_word r) (w +:+ "_%") = true
            /\ (0 < LearnedOn s)%Z.
Proof.
  intros (rs & Hrs & Hs). rewrite searchDictionary_singleton in Hrs.
  injection Hrs as <-. rewrite map_fmap in Hs.
  apply list_elem_of_fmap in Hs as (r & -> & Hr).
  apply sql_select_elem in Hr as [Hr Hc]. apply andb_prop in Hc as [Hl Hp].
  exists r. split_and!; [exact Hr | reflexivity | exact Hl |].
  unfold learned_on_pos in Hp. unfold scan_word. simpl.
  destruct (w_learned_on r) as [z|]; [|discriminate].
  apply Z.ltb_lt in Hp. exact Hp.
Qed.

(** * The examples *)

(** C4: with the two candidates ["a"] and ["b"] and [all] set, the rows
    ["ab"] and ["abc"], whose [learned_on] is NULL, and ["axc"], whose
    [learned_on] is 0, are returned: the condition [learned_on > 0] is
    applied to the last candidate only.  With the candidates in the other
    order, ["a"] is the last one and only the learnt ["ax"] is returned. *)
Theorem searchDictionary_prefix_unlearned :
  searchDictionary ex_store ["a"; "b"] true
  = Some [mkSuggestion "ax" 5 7; mkSuggestion "ab" 3 0;
          mkSuggestion "abc" 2 0; mkSuggestion "axc" 2 0]
  /\ searchDictionary ex_store ["b"; "a"] true = Some [mkSuggestion "ax" 5 7].
Proof. split; vm_compute; reflexivity. Qed.

(** C5, as stated, fails: the candidate ["a_"] returns the rows ["ax"]
    and ["ab"], neither of which equals the candidate. *)
Lemma searchDictionary_exact_mode_wildcard :
  searchDictionary ex_store ["a_"] false
  = Some [mkSuggestion "ax" 5 7; mkSuggestion "ab" 3 0]
  /\ "ax" <> "a_" /\ "ab" <> "a_".
Proof. split_and!; [vm_compute; reflexivity | discriminate | discriminate]. Defined.

(** LIKE identifies the cases of ASCII letters. *)
Example sql_like_nocase : sql_like "India" "iNDIA" = true /\ sql_like "India" "Indja" = false.
Proof. split; reflexivity. Qed.

(** The exact lookup of two candidates in the example store. *)
Lemma searchDictionary_exact_mode_witness :
  exists rs, searchDictionary ex_store ["ab"; "b"] false = Some rs
             /\ StronglySorted (desc Weight) rs /\ length rs <= 5.
Proof.
  destruct (searchDictionary_exact_mode ex_store ["ab"; "b"])
    as (rs & Hrs & _ & _ & Hsorted & Hlen & _); [discriminate|].
  exists rs. split_and!; assumption.
Defined.

(** C6, as stated, fails: the only pattern of the word ["ab"] (id 1) is
    ["chin"], and the lookup of ["chin"] returns ["ab"]: a stored pattern
    equal to the given one qualifies. *)
Theorem getTrailing_returns_equal_pattern :
  getTrailingFromPatternDictionary ex_floor ex_store "chin"
  = [mkSuggestion "ax" 35 0; mkSuggestion "ab" 33 0]
  /\ List.filter (fun pr => (p_word_id pr =? 1)%Z) (patterns_content ex_store)
     = [mkPattern "chin" 1 0].
Proof. split; vm_compute; reflexivity. Qed.

(** C7, as stated, fails: for ["abcd"] the row of the stored pattern
    ["a_c"] is returned, although ["a_c"] is not a prefix of ["abcd"] and
    ["abcd"] is not a prefix of ["a_c"]. *)
Lemma getFromPatternDictionary_wildcard :
  getFromPatternDictionary ex_floor ex_store "abcd"
  = [mkPatternDictionarySuggestion (mkSuggestion "b" 39 0) 3]
  /\ List.filter (fun pr => (p_word_id pr =? 3)%Z) (patterns_content ex_store)
     = [mkPattern "a_c" 3 0]
  /\ String.prefix "a_c" "abcd" = false
  /\ String.prefix "abcd" "a_c" = false.
Proof. split_and!; vm_compute; reflexivity. Defined.

(** The weights of the trailing lookup of ["chin"] in the example store. *)
Lemma pattern_weight_witness :
  forallb (fun s => (ex_floor <=? Weight s)%Z)
          (getTrailingFromPatternDictionary ex_floor ex_store "chin") = true
  /\ exists r, r ∈ words ex_store
               /\ Weight (mkSuggestion "ax" 35 0) = (w_confidence r + ex_floor)%Z.
Proof.
  split; [vm_compute; reflexivity|].
  destruct (pattern_weight_is_confidence_plus_floor ex_floor ex_store "chin")
    as [Htrail _]; [vm_compute; discriminate | reflexivity | reflexivity |].
  destruct (Htrail (mkSuggestion "ax" 35 0)) as (r & Hr & _ & Hw & _).
  - vm_compute. left.
  - exists r. split; assumption.
Defined.

(** C3, as stated, fails: the first SYMBOL token of this input is its
    second token, it has three possibilities, and nothing is in flight
    after it. *)
Lemma no_seeding_after_first_token :
  tokenType ex_tok_star <> ex_symbol
  /\ tokenType ex_tok_qxb = ex_symbol
  /\ length (token ex_tok_qxb) = 3
  /\ results <$> run_tokens ex_symbol ex_store [ex_tok_star; ex_tok_qxb] = Some []
  /\ sugs <$> getFromDictionary ex_symbol ex_store [ex_tok_star; ex_tok_qxb] = Some [].
Proof.
  split_and!; try (vm_compute; reflexivity). vm_compute. discriminate.
Defined.

(** Seeding from a first token of type SYMBOL, and none after a first
    token of another type. *)
Lemma seeding_at_first_token_witness :
  (exists s, run_tokens ex_symbol ex_store [ex_tok_ab] = Some s
             /\ results s = [mkSuggestion "a" 0 0; mkSuggestion "b" 0 0])
  /\ sugs <$> getFromDictionary ex_symbol ex_store [ex_tok_star; ex_tok_qxb; ex_tok_c]
     = Some [].
Proof.
  split.
  - destruct (seeding_at_first_token ex_symbol ex_store ex_tok_ab []) as [Hseed _].
    destruct (Hseed eq_refl) as (s & Hrun & Hr & _).
    exists s. split; [exact Hrun | exact Hr].
  - destruct (seeding_at_first_token ex_symbol ex_store ex_tok_star [ex_tok_qxb; ex_tok_c])
      as [_ Hnone].
    destruct Hnone as (s & lt & _ & _ & _ & _ & Hget); [vm_compute; discriminate|].
    rewrite Hget. reflexivity.
Defined.

(** C10, as stated, fails: this token list is not empty, and the matcher
    panics on it, reading the first possibility of a token that has
    none. *)
Lemma getFromDictionary_panics_on_empty_possibilities :
  [ex_tok_ab; ex_tok_none] <> []
  /\ getFromDictionary ex_symbol ex_store [ex_tok_ab; ex_tok_none] = None.
Proof. split; [discriminate | vm_compute; reflexivity]. Defined.

(** Three SYMBOL tokens with possibilities: the matcher returns. *)
Lemma index_safety_witness :
  exists r, getFromDictionary ex_symbol ex_store [ex_tok_ab; ex_tok_qxb; ex_tok_c] = Some r.
Proof.
  destruct (index_safety ex_symbol ex_store) as (_ & _ & Hsafe).
  apply Hsafe; [discriminate|].
  intros [|[|[|i]]] t Ht _ _; simpl in Ht; try discriminate;
    injection Ht as <-; discriminate.
Defined.

(** A match that spans the three tokens of the input. *)
Lemma exactMatch_iff_last_position_witness :
  exists lastToken,
    last [ex_tok_ab; ex_tok_qxb; ex_tok_c] = Some lastToken
    /\ (true = true <-> 2%Z = position lastToken).
Proof.
  exact (exactMatch_iff_last_position ex_symbol ex_store [ex_tok_ab; ex_tok_qxb; ex_tok_c]
           (mkDictionaryResult [mkSuggestion "axc" 2 0; mkSuggestion "abc" 2 0] true 2)
           ltac:(vm_compute; reflexivity)).
Defined.

(** The entry ["a"] dies at the second token, where ["aq"] is not in the
    store; it is still at index 0, as ["aq"], after the third token, and no
    search of the third token comes from it. *)
Lemma dead_branch_pruned_witness :
  exists s_end,
    run_tokens ex_symbol ex_store [ex_tok_ab; ex_tok_qxb; ex_tok_c] = Some s_end
    /\ results s_end !! 0%nat = Some (mkSuggestion "aq" (-1) 0)
    /\ (forall e, e ∈ searched s_end -> ev_branch e = 0 -> ev_token e <= 1).
Proof.
  pose (s1 := default matcher_init (run_tokens ex_symbol ex_store [ex_tok_ab])).
  pose (s_end := default matcher_init
                   (run_tokens ex_symbol ex_store [ex_tok_ab; ex_tok_qxb; ex_tok_c])).
  assert (Hend : run_tokens ex_symbol ex_store ([ex_tok_ab] ++ ex_tok_qxb :: [ex_tok_c])
                 = Some s_end) by (vm_compute; reflexivity).
  destruct (dead_branch_pruned ex_symbol ex_store [ex_tok_ab] ex_tok_qxb [ex_tok_c] 0
              (mkSuggestion "a" 0 0) (mkSymbol "q") s1 s_end)
    as (s2 & _ & _ & _ & Hdead & _ & Hlog & _);
    [simpl; lia | reflexivity | reflexivity | vm_compute; reflexivity
     | vm_compute; reflexivity | discriminate | vm_compute; reflexivity | exact Hend |].
  exists s_end. split_and!; [exact Hend | exact Hdead | exact Hlog].
Defined.

(** * Further properties *)

(** ** The first row and the empty result of a SELECT *)

Section select_head.
Context {A : Type} (cond : A -> bool) (key : A -> Z) (n : nat).

Lemma sql_select_nil table :
  0 < n ->
  sql_select cond key n table = [] <-> forall x, x ∈ table -> cond x = false.
Proof.
  intros Hn. split.
  - intros Hnil x Hx. destruct (cond x) eqn:Hc; [|reflexivity].
    destruct (sql_select_complete cond key n table x Hx Hc) as [Hin | [Hlen _]].
    + rewrite Hnil in Hin. inversion Hin.
    + rewrite Hnil in Hlen. simpl in Hlen. lia.
  - intros Hnone. destruct (sql_select cond key n table) as [|x l] eqn:Hsel; [reflexivity|].
    assert (Hx : x ∈ sql_select cond key n table) by (rewrite Hsel; left).
    apply sql_select_elem in Hx as [Hx Hc]. rewrite (Hnone x Hx) in Hc. discriminate.
Qed.

Lemma sql_select_head_max table h rest x :
  sql_select cond key n table = h :: rest ->
  x ∈ table -> cond x = true -> (key x <= key h)%Z.
Proof.
  intros Hsel Hx Hc.
  pose proof (sql_select_sorted cond key n table) as Hs. rewrite Hsel in Hs.
  apply StronglySorted_cons in Hs as [Hall _]. rewrite Forall_forall in Hall.
  destruct (sql_select_complete cond key n table x Hx Hc) as [Hin | [_ Hmin]].
  - rewrite Hsel in Hin. apply elem_of_cons in Hin as [-> | Hin]; [lia|].
    exact (Hall x Hin).
  - apply Hmin. rewrite Hsel. left.
Qed.
End select_head.

(** ** Lookups of one word *)

Section lookups.
Variable varnam : Varnam.

(** X1: the exact lookup of one string returns no row exactly when no
    stored word matches it under LIKE; otherwise its first row, the one the
    matcher takes, is a matching row of the highest confidence. *)
Theorem exact_lookup_none_or_best (w : string) :
  (searchDictionary varnam [w] false = Some []
   <-> forall r, r ∈ words varnam -> sql_like (w_word r) w = false)
  /\ (forall h, first_hit varnam w h ->
        exists r, r ∈ words varnam /\ h = scan_word r
                  /\ sql_like (w_word r) w = true
                  /\ forall r', r' ∈ words varnam -> sql_like (w_word r') w = true ->
                                (w_confidence r' <= Weight h)%Z).
Proof.
  rewrite searchDictionary_singleton. unfold like_arg. split.
  - split.
    + intros [= Hnil]. apply map_eq_nil in Hnil.
      intros r Hr.
      assert (H5 : 0 < 5) by lia.
      pose proof (proj1 (sql_select_nil _ w_confidence 5 (words varnam) H5) Hnil r Hr) as Hc.
      simpl in Hc. rewrite andb_true_r in Hc. exact Hc.
    + intros Hnone. f_equal.
      replace (sql_select _ w_confidence 5 (words varnam)) with (@nil words_row);
        [reflexivity|].
      symmetry. apply sql_select_nil; [lia|].
      intros r Hr. rewrite andb_true_r. exact (Hnone r Hr).
  - intros h [rest Hhit]. rewrite searchDictionary_singleton in Hhit.
    unfold like_arg in Hhit. injection Hhit as Hhit.
    destruct (sql_select _ w_confidence 5 (words varnam)) as [|r rs] eqn:Hsel;
      [discriminate|].
    simpl in Hhit. injection Hhit as <- _.
    assert (Hr : r ∈ sql_select (fun r => sql_like (w_word r) w && true)
                      w_confidence 5 (words varnam)) by (rewrite Hsel; left).
    apply sql_select_elem in Hr as [Hr Hc]. rewrite andb_true_r in Hc.
    exists r. split_and!; [exact Hr | reflexivity | exact Hc |].
    intros r' Hr' Hc'. simpl.
    apply (sql_select_head_max _ w_confidence 5 (words varnam) r rs r' Hsel Hr').
    rewrite andb_true_r. exact Hc'.
Qed.

Lemma filter_unique_length {B : Type} (f : words_row -> B) (cond : words_row -> bool)
    (c : B) (table : list words_row) :
  NoDup (map f table) ->
  (forall x, x ∈ table -> cond x = true -> f x = c) ->
  length (List.filter cond table) <= 1.
Proof.
  induction table as [|x l IH]; intros Hnd Hc; simpl; [lia|].
  simpl in Hnd. apply NoDup_cons in Hnd as [Hx Hnd].
  assert (IHl : length (List.filter cond l) <= 1).
  { apply IH; [exact Hnd|]. intros y Hy. apply Hc. right. exact Hy. }
  destruct (cond x) eqn:Hcx; [|exact IHl]. simpl.
  destruct (List.filter cond l) as [|y l'] eqn:Hf; [simpl; lia|].
  exfalso. apply Hx.
  assert (Hy : y ∈ List.filter cond l) by (rewrite Hf; left).
  apply elem_of_filter_bool in Hy as [Hy Hcy].
  rewrite (Hc x (list_elem_of_here _ _) Hcx), <- (Hc y (list_elem_of_further _ _ _ Hy) Hcy).
  rewrite map_fmap. apply list_elem_of_fmap_2. exact Hy.
Qed.

(** X2: in a store where words are unique and hold no upper case ASCII
    letter, the exact lookup of a string without wildcards and upper case
    letters returns at most one row, whose word is that string, and it
    returns the row of the string when the store has one. *)
Theorem exact_lookup_unique (w : string) :
  unique_words varnam ->
  caseless_words varnam = true ->
  literal w = true ->
  caseless w = true ->
  exists rs,
    searchDictionary varnam [w] false = Some rs
    /\ length rs <= 1
    /\ (forall s, s ∈ rs -> Word s = w)
    /\ (forall r, r ∈ words varnam -> w_word r = w -> rs = [scan_word r]).
Proof.
  intros Huniq Hcl Hlit Hcw. rewrite searchDictionary_singleton. unfold like_arg.
  set (cond := fun r : words_row => sql_like (w_word r) w && true).
  assert (Hcond : forall r, r ∈ words varnam -> cond r = true <-> w_word r = w).
  { intros r Hr. unfold cond. rewrite andb_true_r. apply sql_like_exact; try assumption.
    unfold caseless_words in Hcl. rewrite forallb_forall in Hcl.
    apply Hcl, list_elem_of_In, Hr. }
  assert (Hlen : length (sql_select cond w_confidence 5 (words varnam)) <= 1).
  { unfold sql_select. rewrite order_by_length.
    pose proof (filter_unique_length w_word cond w (words varnam) Huniq) as Hf.
    assert (length (List.filter cond (words varnam)) <= 1); [|lia].
    apply Hf. intros x Hx Hc. apply (Hcond x Hx), Hc. }
  eexists. split; [reflexivity|]. split_and!.
  - rewrite length_map. exact Hlen.
  - intros s Hs. rewrite map_fmap in Hs. apply list_elem_of_fmap in Hs as (r & -> & Hr).
    apply sql_select_elem in Hr as [Hr Hc]. simpl. apply (Hcond r Hr), Hc.
  - intros r Hr Hw.
    destruct (sql_select_complete cond w_confidence 5 (words varnam) r Hr)
      as [Hin | [Hfive _]]; [apply (Hcond r Hr), Hw | | lia].
    destruct (sql_select cond w_confidence 5 (words varnam)) as [|x [|y l]];
      [inversion Hin | | simpl in Hlen; lia].
    apply list_elem_of_singleton in Hin as ->. reflexivity.
Qed.

(** X3: the prefix lookup of one string without wildcards returns at most
    5 rows, ordered by confidence descending; each is a stored row whose
    word continues the string (up to the case of ASCII letters) by at least
    one character, so never the string's own row, and whose [learned_on]
    is positive. *)
Theorem prefix_lookup_literal (w : string) :
  literal w = true ->
  exists rs,
    searchDictionary varnam [w] true = Some rs
    /\ length rs <= 5
    /\ StronglySorted (desc Weight) rs
    /\ forall s, s ∈ rs ->
         exists r, r ∈ words varnam /\ s = scan_word r
                   /\ prefix_nocase w (w_word r) = true
                   /\ String.length w < String.length (w_word r)
                   /\ (0 < LearnedOn s)%Z.
Proof.
  intros Hlit. eexists. split; [apply searchDictionary_singleton|]. split_and!.
  - rewrite length_map. apply sql_select_length.
  - apply scan_word_sorted, sql_select_sorted.
  - intros s Hs.
    destruct (searchDictionary_prefix_single varnam w s) as (r & Hr & -> & Hl & Hpos).
    { eexists. split; [apply searchDictionary_singleton | exact Hs]. }
    unfold sql_like in Hl. rewrite (like_literal_underscore_percent w _ Hlit) in Hl.
    apply andb_prop in Hl as [Hpre Hlen]. apply Nat.ltb_lt in Hlen.
    exists r. split_and!; [exact Hr | reflexivity | exact Hpre | exact Hlen | exact Hpos].
Qed.

Lemma getMore_loop (sugs : list Suggestion) (j : nat) (acc : list (list Suggestion)) :
  for_range (fun acc (_ : nat) sug =>
               match searchDictionary varnam [Word sug] true with
               | None => None
               | Some searchResults => Some (acc ++ [searchResults])
               end) j sugs acc
  = Some (acc ++ map (fun sug => map scan_word
                        (sql_select (fun r => sql_like (w_word r) (like_arg true (Word sug))
                                              && learned_on_pos r)
                                    w_confidence 5 (words varnam))) sugs).
Proof.
  revert j acc. induction sugs as [|sug sugs IH]; intros j acc; cbn [for_range map].
  - rewrite app_nil_r. reflexivity.
  - rewrite searchDictionary_singleton, IH, <- app_assoc. reflexivity.
Qed.

(** X4: [getMoreFromDictionary] never panics, also on the empty list; its
    result has one entry per input suggestion, in the same order; the
    entry of index [i] is the prefix lookup of the word of the input of
    index [i]; and every completion in it was learnt ([LearnedOn] is
    positive). *)
Theorem getMoreFromDictionary_parallel (sugs : list Suggestion) :
  exists rss,
    getMoreFromDictionary varnam sugs = Some rss
    /\ length rss = length sugs
    /\ (forall i sug, sugs !! i = Some sug ->
          exists rs, rss !! i = Some rs
                     /\ searchDictionary varnam [Word sug] true = Some rs)
    /\ (forall rs s, rs ∈ rss -> s ∈ rs -> (0 < LearnedOn s)%Z).
Proof.
  unfold getMoreFromDictionary. rewrite getMore_loop. simpl.
  eexists. split; [reflexivity|]. split_and!.
  - apply length_map.
  - intros i sug Hi. eexists. rewrite map_fmap, list_lookup_fmap, Hi. simpl.
    split; [reflexivity | apply searchDictionary_singleton].
  - intros rs s Hrs Hs. rewrite map_fmap in Hrs.
    apply list_elem_of_fmap in Hrs as (sug & -> & _).
    destruct (searchDictionary_prefix_single varnam (Word sug) s) as (_ & _ & _ & _ & Hpos);
      [|exact Hpos].
    eexists. split; [apply searchDictionary_singleton | exact Hs].
Qed.
End lookups.

(** ** More on the pattern dictionary *)

Lemma StronglySorted_fmap_elem {A B : Type} (f : A -> B) (R1 : relation A)
    (R2 : relation B) (l : list A) :
  (forall x y, x ∈ l -> y ∈ l -> R1 x y -> R2 (f x) (f y)) ->
  StronglySorted R1 l -> StronglySorted R2 (f <$> l).
Proof.
  intros Hmono Hs. induction Hs as [|x l Hs IH Hall]; [constructor|].
  cbn. constructor.
  - apply IH. intros a b Ha Hb. apply Hmono; right; assumption.
  - rewrite Forall_forall in Hall. apply Forall_forall. intros y Hy.
    apply list_elem_of_fmap in Hy as (z & -> & Hz).
    apply Hmono; [left | right; exact Hz | exact (Hall z Hz)].
Qed.

Lemma filter_all {A : Type} (cond : A -> bool) (l : list A) :
  (forall x, cond x = true) -> List.filter cond l = l.
Proof.
  intros Hc. induction l as [|x l IH]; [reflexivity|].
  simpl. rewrite (Hc x), IH. reflexivity.
Qed.

Section patterns_more.
Variable floor : Z.
Variable varnam : Varnam.

Lemma id_in_trailing_iff pattern r :
  id_in_trailing varnam pattern r = true
  <-> exists pr, pr ∈ patterns_content varnam
                 /\ p_word_id pr = w_id r
                 /\ sql_like (p_pattern pr) (pattern +:+ "%") = true.
Proof.
  unfold id_in_trailing, pattern_trails. rewrite existsb_exists. split.
  - intros (pr & Hpr & [Hl Hid]%andb_prop). exists pr.
    split_and!; [apply list_elem_of_In; exact Hpr | apply Z.eqb_eq; exact Hid | exact Hl].
  - intros (pr & Hpr & Hid & Hl). exists pr.
    split; [apply list_elem_of_In; exact Hpr|].
    rewrite Hl. apply Z.eqb_eq in Hid. rewrite Hid. reflexivity.
Qed.

(** X5: [getTrailingFromPatternDictionary] returns at most 10
    suggestions; each is the scan of a row of [words] that a row of
    [patterns_content] refers to whose pattern matches [pattern || '%']
    under LIKE (for a pattern without wildcards: the stored pattern starts
    with the given one, up to the case of ASCII letters); a word with such
    a pattern is left out only when the limit is reached; and when stored
    confidences are not negative and the sum with the floor fits a Go
    [int], the result is ordered by weight descending. *)
Theorem getTrailing_spec (pattern : string) :
  length (getTrailingFromPatternDictionary floor varnam pattern) <= 10
  /\ (forall s, s ∈ getTrailingFromPatternDictionary floor varnam pattern ->
        exists r pr, r ∈ words varnam /\ pr ∈ patterns_content varnam
                     /\ p_word_id pr = w_id r
                     /\ sql_like (p_pattern pr) (pattern +:+ "%") = true
                     /\ s = scan_trailing floor r)
  /\ (forall r pr, r ∈ words varnam -> pr ∈ patterns_content varnam ->
        p_word_id pr = w_id r ->
        sql_like (p_pattern pr) (pattern +:+ "%") = true ->
        scan_trailing floor r ∈ getTrailingFromPatternDictionary floor varnam pattern
        \/ length (getTrailingFromPatternDictionary floor varnam pattern) = 10)
  /\ (literal pattern = true ->
      forall stored, sql_like stored (pattern +:+ "%") = prefix_nocase pattern stored)
  /\ ((int_min <= floor)%Z -> confidences_ok floor varnam = true ->
      StronglySorted (desc Weight) (getTrailingFromPatternDictionary floor varnam pattern)).
Proof.
  unfold getTrailingFromPatternDictionary. split_and!.
  - rewrite length_map. apply sql_select_length.
  - intros s Hs. rewrite map_fmap in Hs. apply list_elem_of_fmap in Hs as (r & -> & Hr).
    apply sql_select_elem in Hr as [Hr Hc].
    apply id_in_trailing_iff in Hc as (pr & Hpr & Hid & Hl).
    exists r, pr. split_and!; try assumption. reflexivity.
  - intros r pr Hr Hpr Hid Hl.
    destruct (sql_select_complete (id_in_trailing varnam pattern) w_confidence 10
                (words varnam) r Hr) as [Hin | [Hlen _]].
    + apply id_in_trailing_iff. exists pr. split_and!; assumption.
    + left. rewrite map_fmap. apply list_elem_of_fmap_2. exact Hin.
    + right. rewrite length_map. exact Hlen.
  - intros Hlit stored. apply like_literal_percent. exact Hlit.
  - intros Hfl Hok. rewrite map_fmap.
    apply (StronglySorted_fmap_elem _ (desc w_confidence)); [|apply sql_select_sorted].
    intros x y Hx Hy Hxy. unfold desc in *. simpl.
    apply sql_select_elem in Hx as [Hx _]. apply sql_select_elem in Hy as [Hy _].
    destruct (confidence_floor floor varnam x Hfl Hok Hx) as [-> _].
    destruct (confidence_floor floor varnam y Hfl Hok Hy) as [-> _]. lia.
Qed.

(** X6: [getFromPatternDictionary] returns nothing exactly when no row of
    [patterns_content] satisfies its condition; otherwise the first entry
    carries the greatest pattern length among all the rows that satisfy
    it: the longest stored pattern comes first. *)
Theorem getFromPatternDictionary_none_or_longest (pattern : string) :
  (getFromPatternDictionary floor varnam pattern = []
   <-> forall pr, pr ∈ patterns_content varnam -> pattern_resolves pattern pr = false)
  /\ (forall h rest pr,
        getFromPatternDictionary floor varnam pattern = h :: rest ->
        pr ∈ patterns_content varnam -> pattern_resolves pattern pr = true ->
        (Z.of_nat (String.length (p_pattern pr)) <= Length h)%Z).
Proof.
  unfold getFromPatternDictionary. split.
  - rewrite <- (sql_select_nil (pattern_resolves pattern) pattern_length 10) by lia.
    split; [apply map_eq_nil | intros ->; reflexivity].
  - intros h rest pr Hres Hpr Hc.
    destruct (sql_select (pattern_resolves pattern) pattern_length 10
                (patterns_content varnam)) as [|x l] eqn:Hsel; [discriminate|].
    simpl in Hres. injection Hres as <- _. rewrite scan_pattern_Length.
    exact (sql_select_head_max _ pattern_length 10 _ x l pr Hsel Hpr Hc).
Qed.

(** X7: the empty pattern matches every stored pattern:
    [getFromPatternDictionary] then returns as many entries as there are
    rows in [patterns_content], up to the limit of 10, and
    [getTrailingFromPatternDictionary] selects every word that a row of
    [patterns_content] refers to. *)
Theorem empty_pattern_matches_all :
  length (getFromPatternDictionary floor varnam EmptyString)
  = Nat.min 10 (length (patterns_content varnam))
  /\ (forall r pr, r ∈ words varnam -> pr ∈ patterns_content varnam ->
        p_word_id pr = w_id r ->
        scan_trailing floor r ∈ getTrailingFromPatternDictionary floor varnam EmptyString
        \/ length (getTrailingFromPatternDictionary floor varnam EmptyString) = 10).
Proof.
  split_and!.
  - unfold getFromPatternDictionary, sql_select.
    rewrite length_map, order_by_length, filter_all; [reflexivity|].
    intros pr. unfold pattern_resolves, sql_like.
    change (EmptyString +:+ "%") with "%". rewrite like_percent_all. apply orb_true_r.
  - intros r pr Hr Hpr Hid. unfold getTrailingFromPatternDictionary.
    destruct (sql_select_complete (id_in_trailing varnam EmptyString) w_confidence 10
                (words varnam) r Hr) as [Hin | [Hlen _]].
    + apply id_in_trailing_iff. exists pr. split_and!; try assumption.
      unfold sql_like. change (EmptyString +:+ "%") with "%". apply like_percent_all.
    + left. rewrite map_fmap. apply list_elem_of_fmap_2. exact Hin.
    + right. rewrite length_map. exact Hlen.
Qed.
End patterns_more.

(** ** More on the matcher *)

Lemma spellings_snoc (SYMBOL : Z) (tokens : list Token) (t : Token) :
  spellings SYMBOL (tokens ++ [t]) = spell_token SYMBOL t (spellings SYMBOL tokens).
Proof. unfold spellings. rewrite fold_left_app. reflexivity. Qed.

Lemma spell_token_other (SYMBOL : Z) (t : Token) (acc : list string) :
  tokenType t <> SYMBOL -> spell_token SYMBOL t acc = acc.
Proof.
  intros H. unfold spell_token. apply Z.eqb_neq in H. rewrite H. reflexivity.
Qed.

Lemma spell_token_symbol (SYMBOL : Z) (t : Token) (acc : list string) (w : string)
    (p : Symbol) :
  tokenType t = SYMBOL -> w ∈ acc -> p ∈ token t ->
  w +:+ value1 p ∈ spell_token SYMBOL t acc.
Proof.
  intros Hty Hw Hp. unfold spell_token. apply Z.eqb_eq in Hty. rewrite Hty.
  apply list_elem_of_In, in_flat_map. exists w.
  split; [apply list_elem_of_In; exact Hw|].
  apply in_map_iff. exists p. split; [reflexivity | apply list_elem_of_In; exact Hp].
Qed.

Lemma spellings_take_S (SYMBOL : Z) (tokens : list Token) (k : nat) (t : Token) :
  tokens !! k = Some t ->
  spellings SYMBOL (take (S k) tokens)
  = spell_token SYMBOL t (spellings SYMBOL (take k tokens)).
Proof.
  intros Hk. rewrite (take_S_r tokens k t Hk). apply spellings_snoc.
Qed.

Section matcher_more.
Variable SYMBOL : Z.
Variable varnam : Varnam.

(** The entries and the searches that the loop over the other
    possibilities adds. *)
Lemma try_possibilities_detail i j till ps k0 st st' :
  for_range (try_possibility varnam i j till) k0 ps st = Some st' ->
  exists new evs,
    results st' = results st ++ new
    /\ searched st' = searched st ++ evs
    /\ (forall x, x ∈ new ->
          exists p, p ∈ ps /\ x = mkSuggestion (till +:+ value1 p) 0 0)
    /\ (forall e, e ∈ evs ->
          exists p, p ∈ ps /\ e = mkEvent i j (till +:+ value1 p)).
Proof.
  revert k0 st. induction ps as [|p ps IH]; intros k0 st Hrun; simpl in Hrun.
  - injection Hrun as <-. exists [], []. rewrite !app_nil_r.
    split_and!; try reflexivity; intros x Hx; inversion Hx.
  - destruct (try_possibility varnam i j till st k0 p) as [st1|] eqn:Hb; [|discriminate].
    destruct (IH _ _ Hrun) as (new & evs & Hr & Hs & Hnew & Hevs).
    assert (Hnew' : forall x, x ∈ new ->
              exists q, q ∈ p :: ps /\ x = mkSuggestion (till +:+ value1 q) 0 0).
    { intros x Hx. destruct (Hnew x Hx) as (q & Hq & ->).
      exists q. split; [right; exact Hq | reflexivity]. }
    assert (Hevs' : forall e, e ∈ evs ->
              exists q, q ∈ p :: ps /\ e = mkEvent i j (till +:+ value1 q)).
    { intros e He. destruct (Hevs e He) as (q & Hq & ->).
      exists q. split; [right; exact Hq | reflexivity]. }
    unfold try_possibility in Hb.
    destruct (k0 =? 0)%nat.
    { injection Hb as <-. exists new, evs. split_and!; assumption. }
    destruct (searchDictionary varnam [till +:+ value1 p] false)
      as [[|hit rest]|]; [| |discriminate]; injection Hb as <-; simpl in *.
    + exists new, (mkEvent i j (till +:+ value1 p) :: evs).
      rewrite Hs, <- app_assoc. split_and!; try assumption; try reflexivity.
      intros e [-> | He]%elem_of_cons; [|apply (Hevs' e He)].
      exists p. split; [left | reflexivity].
    + exists (mkSuggestion (till +:+ value1 p) 0 0 :: new),
             (mkEvent i j (till +:+ value1 p) :: evs).
      rewrite Hr, Hs, <- !app_assoc. split_and!; try reflexivity.
      * intros x [-> | Hx]%elem_of_cons; [|apply (Hnew' x Hx)].
        exists p. split; [left | reflexivity].
      * intros e [-> | He]%elem_of_cons; [|apply (Hevs' e He)].
        exists p. split; [left | reflexivity].
Qed.

(** One iteration of the loop over the in-flight list, for a live entry
    that is still as it was when the loop was entered. *)
Lemma extend_candidate_detail i t st j result st' :
  Weight result <> (-1)%Z ->
  results st !! j = Some result ->
  extend_candidate varnam i t st j result = Some st' ->
  exists p0 w new evs,
    token t !! 0%nat = Some p0
    /\ results st'
       = <[j := mkSuggestion (Word result +:+ value1 p0) w (LearnedOn result)]> (results st)
         ++ new
    /\ (w = Weight result
        \/ (w = (-1)%Z
            /\ searchDictionary varnam [Word result +:+ value1 p0] false = Some []))
    /\ searched st' = searched st ++ evs
    /\ (forall x, x ∈ new ->
          exists p, p ∈ token t /\ x = mkSuggestion (Word result +:+ value1 p) 0 0)
    /\ (forall e, e ∈ evs ->
          exists p, p ∈ token t /\ e = mkEvent i j (Word result +:+ value1 p)).
Proof.
  intros Hlive Hcur Hrun. unfold extend_candidate in Hrun.
  apply Z.eqb_neq in Hlive. rewrite Hlive, Hcur in Hrun.
  destruct (token t !! 0%nat) as [p0|] eqn:Hp0; [|discriminate].
  assert (Hp0in : p0 ∈ token t) by (eapply list_elem_of_lookup_2; exact Hp0).
  cbn [Word LearnedOn Weight] in Hrun.
  destruct (searchDictionary varnam [Word result +:+ value1 p0] false)
    as [[|hit rest]|] eqn:Hq; [| |discriminate];
    apply try_possibilities_detail in Hrun as (new & evs & Hr & Hs & Hnew & Hevs);
    simpl in Hr, Hs.
  - exists p0, (-1)%Z, new, (mkEvent i j (Word result +:+ value1 p0) :: evs).
    rewrite list_insert_insert_eq in Hr. rewrite <- app_assoc in Hs.
    split_and!; try assumption; try reflexivity.
    + right. split; [reflexivity | exact Hq].
    + intros e [-> | He]%elem_of_cons; [|apply (Hevs e He)].
      exists p0. split; [exact Hp0in | reflexivity].
  - exists p0, (Weight result), new, (mkEvent i j (Word result +:+ value1 p0) :: evs).
    rewrite <- app_assoc in Hs.
    split_and!; try assumption; try reflexivity.
    + left. reflexivity.
    + intros e [-> | He]%elem_of_cons; [|apply (Hevs e He)].
      exists p0. split; [exact Hp0in | reflexivity].
Qed.

Lemma cand_inv_length i t st0 j s :
  cand_inv varnam i t st0 j s -> length (results st0) <= length (results s).
Proof.
  intros (H1 & H2 & _).
  destruct (Nat.le_gt_cases (length (results st0)) (length (results s))) as [Hle | Hgt];
    [exact Hle | exfalso].
  destruct (lookup_lt_is_Some_2 (results st0) (length (results s)) Hgt) as [y Hy].
  destruct (Nat.le_gt_cases j (length (results s))) as [Hj | Hj].
  - apply (H1 _ _ Hy), lookup_lt_Some in Hj. lia.
  - destruct (H2 _ _ Hy Hj) as (x' & Hx' & _). apply lookup_lt_Some in Hx'. lia.
Qed.

(** Besides its invariant, the loop over the in-flight list keeps this:
    an appended entry is a live entry of the list as it was, extended by a
    possibility of the token, with weight 0; an entry that was live is
    marked dead only when the lookup of its extended word found nothing;
    and every search is for a live entry extended by a possibility. *)
Lemma candidates_detail i t st0 s' :
  for_range (extend_candidate varnam i t) 0 (results st0) st0 = Some s' ->
  (forall k x, results s' !! k = Some x -> length (results st0) <= k ->
     exists y p, y ∈ results st0 /\ Weight y <> (-1)%Z /\ p ∈ token t
                 /\ x = mkSuggestion (Word y +:+ value1 p) 0 0)
  /\ (forall k y x', results st0 !! k = Some y -> Weight y <> (-1)%Z ->
        results s' !! k = Some x' ->
        Weight x' = Weight y
        \/ (Weight x' = (-1)%Z
            /\ searchDictionary varnam [Word x'] false = Some []))
  /\ exists evs,
      searched s' = searched st0 ++ evs
      /\ forall e, e ∈ evs ->
           exists y p, y ∈ results st0 /\ Weight y <> (-1)%Z /\ p ∈ token t
                       /\ ev_query e = Word y +:+ value1 p.
Proof.
  intros Hrun.
  pose (P := fun (j : nat) (s : matcher) =>
    cand_inv varnam i t st0 j s
    /\ (forall k x, results s !! k = Some x -> length (results st0) <= k ->
          exists y p, y ∈ results st0 /\ Weight y <> (-1)%Z /\ p ∈ token t
                      /\ x = mkSuggestion (Word y +:+ value1 p) 0 0)
    /\ (forall k y x', results st0 !! k = Some y -> k < j -> Weight y <> (-1)%Z ->
          results s !! k = Some x' ->
          Weight x' = Weight y
          \/ (Weight x' = (-1)%Z
              /\ searchDictionary varnam [Word x'] false = Some []))
    /\ exists evs,
        searched s = searched st0 ++ evs
        /\ forall e, e ∈ evs ->
             exists y p, y ∈ results st0 /\ Weight y <> (-1)%Z /\ p ∈ token t
                         /\ ev_query e = Word y +:+ value1 p).
  assert (Hend : P (0 + length (results st0)) s').
  { apply (for_range_inv (extend_candidate varnam i t) P (results st0) 0 st0 s');
      [| |exact Hrun].
    - split_and!.
      + apply cand_inv_init.
      + intros k x Hk Hle. apply lookup_lt_Some in Hk. lia.
      + intros k y x' _ Hlt. lia.
      + exists []. rewrite app_nil_r. split; [reflexivity|]. intros e He. inversion He.
    - intros j x s s1 Hx (Hinv & D1 & D2 & evs0 & Hs0 & Hev0) Hb. simpl in *.
      pose proof (cand_inv_step varnam i t st0 j x s s1 Hx Hinv Hb) as Hinv1.
      pose proof (cand_inv_length i t st0 j s Hinv) as Hlen.
      assert (Hjn : j < length (results st0)) by (eapply lookup_lt_Some; exact Hx).
      assert (Hsj : results s !! j = Some x).
      { destruct Hinv as (H1 & _). apply H1; [exact Hx | lia]. }
      destruct (Z.eq_dec (Weight x) (-1)%Z) as [Hd | Hl].
      + rewrite (extend_candidate_dead varnam i t s j x Hd) in Hb. injection Hb as <-.
        split_and!; [exact Hinv1 | exact D1 | | exists evs0; split; assumption].
        intros k y x' Hk Hlt Hlive Hx'. destruct (decide (k = j)) as [-> | Hne].
        * rewrite Hx in Hk. injection Hk as <-. contradiction.
        * apply (D2 k y x' Hk); [lia | assumption..].
      + destruct (extend_candidate_detail i t s j x s1 Hl Hsj Hb)
          as (p0 & w & new & evs & Hp0 & Hr & Hw & Hs & Hnew & Hevs).
        assert (Hxin : x ∈ results st0) by (eapply list_elem_of_lookup_2; exact Hx).
        split_and!; [exact Hinv1 | | |].
        * intros k x1 Hk Hle. rewrite Hr in Hk.
          apply lookup_app_Some in Hk as [Hk | [_ Hk]].
          -- rewrite list_lookup_insert_ne in Hk by lia. apply (D1 k x1 Hk Hle).
          -- apply list_elem_of_lookup_2 in Hk. destruct (Hnew x1 Hk) as (p & Hp & ->).
             exists x, p. split_and!; [exact Hxin | exact Hl | exact Hp | reflexivity].
        * intros k y x' Hk Hlt Hlive Hx'. rewrite Hr in Hx'.
          rewrite lookup_app_l in Hx' by (rewrite length_insert; lia).
          destruct (decide (k = j)) as [-> | Hne].
          -- rewrite Hx in Hk. injection Hk as <-.
             rewrite list_lookup_insert_eq in Hx' by lia. injection Hx' as <-. simpl.
             destruct Hw as [-> | [-> Hmiss]]; [left; reflexivity | right].
             split; [reflexivity | exact Hmiss].
          -- rewrite list_lookup_insert_ne in Hx' by lia.
             apply (D2 k y x' Hk); [lia | assumption..].
        * exists (evs0 ++ evs). rewrite Hs, Hs0, app_assoc. split; [reflexivity|].
          intros e [He | He]%elem_of_app; [apply (Hev0 e He)|].
          destruct (Hevs e He) as (p & Hp & ->).
          exists x, p. split_and!; [exact Hxin | exact Hl | exact Hp | reflexivity]. }
  destruct Hend as (_ & D1 & D2 & D3). simpl in D2.
  split_and!; [exact D1 | | exact D3].
  intros k y x' Hk Hlive Hx'. apply (D2 k y x' Hk); [|assumption..].
  eapply lookup_lt_Some. exact Hk.
Qed.

Lemma process_token_symbol_loop st i t st' :
  0 < i -> tokenType t = SYMBOL ->
  process_token SYMBOL varnam st i t = Some st' ->
  exists s1,
    for_range (extend_candidate varnam i t) 0 (results st) (fresh_temp st) = Some s1
    /\ results st' = results s1 /\ searched st' = searched s1
    /\ ((tempFoundDictWords s1 = []
         /\ foundPosition st' = foundPosition st
         /\ foundDictWords st' = foundDictWords st)
        \/ (tempFoundDictWords s1 <> []
            /\ foundPosition st' = position t
            /\ foundDictWords st' = tempFoundDictWords s1)).
Proof.
  intros Hi Hty. unfold process_token.
  apply Z.eqb_eq in Hty. rewrite Hty.
  replace (i =? 0)%nat with false by (symmetry; apply Nat.eqb_neq; lia).
  replace (0 <? i)%nat with true by (symmetry; apply Nat.ltb_lt; lia).
  change (results (fresh_temp st)) with (results st).
  destruct (for_range (extend_candidate varnam i t) 0 (results st) (fresh_temp st))
    as [s1|] eqn:Hloop; [|discriminate].
  pose proof (candidates_spec varnam i t (fresh_temp st) s1 Hloop) as (_ & _ & _ & Hp & Hf & _).
  intros Hrun. exists s1. split; [reflexivity|].
  destruct (tempFoundDictWords s1) as [|h hs] eqn:Htemp; simpl in Hrun;
    injection Hrun as <-; simpl.
  - split_and!; try reflexivity. left. split_and!; [reflexivity | exact Hp | exact Hf].
  - split_and!; try reflexivity. right. split_and!; [discriminate | reflexivity..].
Qed.

(** What holds of the in-flight list and of the found set after any
    run. *)
Lemma run_tokens_detail tokens s :
  run_tokens SYMBOL varnam tokens = Some s ->
  (forall x, x ∈ results s ->
     (Weight x = 0%Z \/ Weight x = (-1)%Z) /\ LearnedOn x = 0%Z
     /\ (Weight x <> (-1)%Z -> Word x ∈ spellings SYMBOL tokens)
     /\ (Weight x = (-1)%Z ->
         searchDictionary varnam [Word x] false = Some []
         /\ exists m, Word x ∈ spellings SYMBOL (take m tokens)))
  /\ ((foundDictWords s = [] /\ foundPosition s = 0%Z)
      \/ (foundDictWords s <> []
          /\ exists i t,
              0 < i /\ tokens !! i = Some t /\ tokenType t = SYMBOL
              /\ foundPosition s = position t
              /\ forall h, h ∈ foundDictWords s ->
                   exists q, q ∈ spellings SYMBOL (take (S i) tokens)
                             /\ first_hit varnam q h)).
Proof.
  intros Hrun.
  pose (entry_ok := fun (n : nat) (x : Suggestion) =>
    (Weight x = 0%Z \/ Weight x = (-1)%Z) /\ LearnedOn x = 0%Z
    /\ (Weight x <> (-1)%Z -> Word x ∈ spellings SYMBOL (take n tokens))
    /\ (Weight x = (-1)%Z ->
        searchDictionary varnam [Word x] false = Some []
        /\ exists m, Word x ∈ spellings SYMBOL (take m tokens))).
  pose (found_ok := fun (n : nat) (s : matcher) =>
    (foundDictWords s = [] /\ foundPosition s = 0%Z)
    \/ (foundDictWords s <> []
        /\ exists i t,
            0 < i /\ i < n /\ tokens !! i = Some t /\ tokenType t = SYMBOL
            /\ foundPosition s = position t
            /\ forall h, h ∈ foundDictWords s ->
                 exists q, q ∈ spellings SYMBOL (take (S i) tokens)
                           /\ first_hit varnam q h)).
  pose (P := fun (n : nat) (s : matcher) =>
    (n = 0 -> results s = [])
    /\ (forall x, x ∈ results s -> entry_ok n x)
    /\ found_ok n s).
  assert (Hend : P (0 + length tokens) s).
  { apply (for_range_inv (process_token SYMBOL varnam) P tokens 0 matcher_init s);
      [| |exact Hrun].
    - split_and!; [reflexivity | intros x Hx; inversion Hx | left; split; reflexivity].
    - intros k t s0 s1 Hk (Hzero & Hent & Hfound) Hstep. simpl in *.
      pose proof (spellings_take_S SYMBOL tokens k t Hk) as Hsp.
      assert (Hfound_mono : found_ok k s1 -> found_ok (S k) s1).
      { intros [Hl | (Hne & i & t' & Hi & Hlt & Hrest)]; [left; exact Hl | right].
        split; [exact Hne|]. exists i, t'. split; [exact Hi | split; [lia | exact Hrest]]. }
      destruct (decide (tokenType t = SYMBOL)) as [Hty | Hty].
      2:{ destruct (process_token_cases SYMBOL varnam s0 k t s1 Hstep)
            as [(_ & Hr & _ & Hp & Hf) | [(Hc & _) | (Hc & _)]]; [|contradiction..].
          rewrite (spell_token_other SYMBOL t _ Hty) in Hsp.
          split_and!; [lia | |].
          - intros x Hx. rewrite Hr in Hx. destruct (Hent x Hx) as (Ha & Hb & Hc & Hd).
            unfold entry_ok. rewrite Hsp. split_and!; assumption.
          - apply Hfound_mono. unfold found_ok. rewrite Hp, Hf. exact Hfound. }
      destruct (Nat.eq_dec k 0) as [-> | Hk0].
      { destruct (process_token_cases SYMBOL varnam s0 0 t s1 Hstep)
          as [(Hc & _) | [(_ & _ & Hr & _ & Hp & Hf) | (_ & Hc & _)]];
          [contradiction | | lia].
        rewrite (Hzero eq_refl) in Hr. simpl in Hr.
        split_and!; [lia | |].
        - intros x Hx. rewrite Hr, map_fmap in Hx.
          apply list_elem_of_fmap in Hx as (p & -> & Hp').
          unfold entry_ok. simpl. split_and!; [left; reflexivity | reflexivity | | discriminate].
          intros _. rewrite Hsp.
          change (value1 p) with (EmptyString +:+ value1 p).
          apply spell_token_symbol; [exact Hty | left | exact Hp'].
        - apply Hfound_mono. unfold found_ok. rewrite Hp, Hf. exact Hfound. }
      assert (Hkpos : 0 < k) by lia.
      destruct (process_token_symbol_loop s0 k t s1 Hkpos Hty Hstep)
        as (s2 & Hloop & Hr & Hs & Hcommit).
      pose proof (candidates_spec varnam k t (fresh_temp s0) s2 Hloop)
        as (_ & H2 & (evs & hits & Hsev & Htemp & _ & Hhits) & _ & _ & _).
      pose proof (candidates_detail k t (fresh_temp s0) s2 Hloop)
        as (D1 & D2 & evs' & Hsev' & Hquery).
      simpl in H2, Hsev, Htemp, D1, D2, Hsev', Hquery.
      assert (Hlive : forall y p, y ∈ results s0 -> Weight y <> (-1)%Z -> p ∈ token t ->
                Word y +:+ value1 p ∈ spellings SYMBOL (take (S k) tokens)).
      { intros y p Hy Hl Hp'. rewrite Hsp. apply spell_token_symbol; [exact Hty | | exact Hp'].
        destruct (Hent y Hy) as (_ & _ & Hc & _). exact (Hc Hl). }
      split_and!; [lia | |].
      + intros x Hx. rewrite Hr in Hx.
        apply list_elem_of_lookup in Hx as [kk Hkk].
        destruct (Nat.lt_ge_cases kk (length (results s0))) as [Hlt | Hge].
        * destruct (lookup_lt_is_Some_2 (results s0) kk Hlt) as [y Hy].
          destruct (H2 kk y Hy Hlt) as (x' & Hx' & Hdead & Hstepy).
          rewrite Hkk in Hx'. injection Hx' as <-.
          assert (Hyin : y ∈ results s0) by (eapply list_elem_of_lookup_2; exact Hy).
          destruct (Hent y Hyin) as (Hwy & Hly & Hspy & Hdy).
          destruct (Z.eq_dec (Weight y) (-1)%Z) as [Hyd | Hyl].
          -- rewrite (Hdead Hyd). unfold entry_ok.
             split_and!; [exact Hwy | exact Hly | intros Hc; contradiction | exact Hdy].
          -- destruct (Hstepy Hyl) as (p0 & Hp0 & Hword & Hlearn & Hwx & _).
             assert (Hp0in : p0 ∈ token t) by (eapply list_elem_of_lookup_2; exact Hp0).
             assert (Hwy0 : Weight y = 0%Z) by (destruct Hwy; [assumption | contradiction]).
             assert (Hspx : Word x ∈ spellings SYMBOL (take (S k) tokens)).
             { rewrite Hword. apply Hlive; assumption. }
             unfold entry_ok. split_and!.
             ++ destruct Hwx as [-> | ->]; [left; exact Hwy0 | right; reflexivity].
             ++ rewrite Hlearn. exact Hly.
             ++ intros _. exact Hspx.
             ++ intros Hxd. destruct (D2 kk y x Hy Hyl Hkk) as [Heq | [_ Hmiss]]; [congruence|].
                split; [exact Hmiss | exists (S k); exact Hspx].
        * destruct (D1 kk x Hkk Hge) as (y & p & Hy & Hyl & Hp' & ->).
          unfold entry_ok. simpl.
          split_and!; [left; reflexivity | reflexivity | | discriminate].
          intros _. apply Hlive; assumption.
      + destruct Hcommit as [(_ & Hp & Hf) | (Hne & Hp & Hf)].
        * apply Hfound_mono. unfold found_ok. rewrite Hp, Hf. exact Hfound.
        * right. rewrite Hf. split; [exact Hne|]. exists k, t.
          split_and!; [exact Hkpos | lia | exact Hk | exact Hty | exact Hp |].
          intros h Hh. rewrite Htemp in Hh. simpl in Hh.
          destruct (Hhits h Hh) as (e & He & Hfh).
          assert (Heq : evs = evs').
          { apply (app_inv_head (searched s0)). rewrite <- Hsev, <- Hsev'. reflexivity. }
          rewrite Heq in He. destruct (Hquery e He) as (y & p & Hy & Hyl & Hp' & Hq).
          exists (ev_query e). split; [|exact Hfh]. rewrite Hq. apply Hlive; assumption. }
  destruct Hend as (_ & Hent & Hfound). simpl in Hent, Hfound.
  split.
  - intros x Hx. destruct (Hent x Hx) as (Ha & Hb & Hc & Hd).
    rewrite take_ge in Hc by lia. split_and!; assumption.
  - destruct Hfound as [Hl | (Hne & i & t & Hi & _ & Hrest)]; [left; exact Hl | right].
    split; [exact Hne|]. exists i, t. split; [exact Hi | exact Hrest].
Qed.

Lemma first_hit_row q h :
  first_hit varnam q h ->
  exists row, row ∈ words varnam /\ h = scan_word row /\ sql_like (w_word row) q = true.
Proof.
  intros [rest Hhit]. rewrite searchDictionary_singleton in Hhit.
  unfold like_arg in Hhit. injection Hhit as Hhit.
  destruct (sql_select (fun r => sql_like (w_word r) q && true) w_confidence 5
              (words varnam)) as [|row rows] eqn:Hsel; [discriminate|].
  simpl in Hhit. injection Hhit as <- _.
  assert (Hrow : row ∈ sql_select (fun r => sql_like (w_word r) q && true)
                        w_confidence 5 (words varnam)) by (rewrite Hsel; left).
  apply sql_select_elem in Hrow as [Hrow Hc]. rewrite andb_true_r in Hc.
  exists row. split_and!; [exact Hrow | reflexivity | exact Hc].
Qed.

(** X8: after any number of tokens, every in-flight entry has weight 0
    (live) or -1 (dead) and [LearnedOn] 0: rows of the store never enter
    the in-flight list, and the weight is used as a flag only. *)
Theorem inflight_weights_are_flags tokens s :
  run_tokens SYMBOL varnam tokens = Some s ->
  forall x, x ∈ results s ->
    (Weight x = 0%Z \/ Weight x = (-1)%Z) /\ LearnedOn x = 0%Z.
Proof.
  intros Hrun x Hx.
  destruct (run_tokens_detail tokens s Hrun) as [Hent _].
  destruct (Hent x Hx) as (Ha & Hb & _). split; assumption.
Qed.

(** X9: after any number of tokens, the word of every live in-flight
    entry is spelled by the tokens processed, one possibility for each
    SYMBOL token; and an entry is dead only if the exact lookup of its
    word, which some prefix of the tokens spells, finds nothing. *)
Theorem inflight_words_are_spelled tokens s :
  run_tokens SYMBOL varnam tokens = Some s ->
  forall x, x ∈ results s ->
    (Weight x <> (-1)%Z -> Word x ∈ spellings SYMBOL tokens)
    /\ (Weight x = (-1)%Z ->
        searchDictionary varnam [Word x] false = Some []
        /\ exists m, Word x ∈ spellings SYMBOL (take m tokens)).
Proof.
  intros Hrun x Hx.
  destruct (run_tokens_detail tokens s Hrun) as [Hent _].
  destruct (Hent x Hx) as (_ & _ & Hc & Hd). split; assumption.
Qed.

(** X10: when [getFromDictionary] returns, either it returns no
    suggestion and the position 0, or the position is that of a SYMBOL
    token after the first, and every suggestion is the scan of a stored
    row: the first row of the exact lookup of a string that the tokens up
    to that one spell. *)
Theorem suggestions_match_spellings tokens r :
  getFromDictionary SYMBOL varnam tokens = Some r ->
  (sugs r = [] /\ longestMatchPosition r = 0%Z)
  \/ (sugs r <> []
      /\ exists i t,
          0 < i /\ tokens !! i = Some t /\ tokenType t = SYMBOL
          /\ longestMatchPosition r = position t
          /\ forall h, h ∈ sugs r ->
               exists q row,
                 q ∈ spellings SYMBOL (take (S i) tokens)
                 /\ first_hit varnam q h
                 /\ row ∈ words varnam /\ h = scan_word row
                 /\ sql_like (w_word row) q = true).
Proof.
  unfold getFromDictionary.
  destruct (run_tokens SYMBOL varnam tokens) as [s|] eqn:Hrun; [|discriminate].
  destruct (tokens !! (length tokens - 1)) as [lastToken|]; [|discriminate].
  intros [= <-]. simpl.
  destruct (run_tokens_detail tokens s Hrun) as [_ [Hl | (Hne & i & t & Hi & Ht & Hty & Hp & Hh)]];
    [left; exact Hl | right].
  split; [exact Hne|]. exists i, t. split_and!; try assumption.
  intros h Hin. destruct (Hh h Hin) as (q & Hq & Hfh).
  destruct (first_hit_row q h Hfh) as (row & Hrow & Heq & Hlike).
  exists q, row. split_and!; assumption.
Qed.

(** X11: when the tokens have distinct positions and [getFromDictionary]
    reports an exact match with suggestions, every suggestion is the first
    row of the exact lookup of a string that the whole token list
    spells. *)
Theorem exact_match_spans_input tokens r :
  NoDup (map position tokens) ->
  getFromDictionary SYMBOL varnam tokens = Some r ->
  exactMatch r = true ->
  sugs r <> [] ->
  forall h, h ∈ sugs r ->
    exists q, q ∈ spellings SYMBOL tokens /\ first_hit varnam q h.
Proof.
  intros Hnd Hget. unfold getFromDictionary in Hget.
  destruct (run_tokens SYMBOL varnam tokens) as [s|] eqn:Hrun; [|discriminate].
  destruct (tokens !! (length tokens - 1)) as [lastToken|] eqn:Hlast; [|discriminate].
  injection Hget as <-. simpl. intros Hexact Hne h Hin.
  apply Z.eqb_eq in Hexact.
  destruct (run_tokens_detail tokens s Hrun)
    as [_ [[Hnil _] | (_ & i & t & _ & Ht & _ & Hp & Hh)]]; [contradiction|].
  destruct (Hh h Hin) as (q & Hq & Hfh). exists q. split; [|exact Hfh].
  assert (Hi : i = length tokens - 1).
  { rewrite map_fmap in Hnd.
    apply (NoDup_lookup (position <$> tokens) i (length tokens - 1) (position t) Hnd).
    - rewrite list_lookup_fmap, Ht. reflexivity.
    - rewrite list_lookup_fmap, Hlast. simpl. congruence. }
  assert (Hlen : 0 < length tokens) by (apply lookup_lt_Some in Ht; lia).
  rewrite take_ge in Hq by lia. exact Hq.
Qed.

Lemma all_dead_loop i t (R : list Suggestion) j st :
  Forall (fun x => Weight x = (-1)%Z) R ->
  for_range (extend_candidate varnam i t) j R st = Some st.
Proof.
  intros Hall. revert j. induction Hall as [|x l Hx Hall IH]; intros j; simpl.
  - reflexivity.
  - rewrite (extend_candidate_dead varnam i t st j x Hx). apply IH.
Qed.

Lemma process_token_all_dead st i t :
  0 < i ->
  Forall (fun x => Weight x = (-1)%Z) (results st) ->
  process_token SYMBOL varnam st i t = Some (fresh_temp st).
Proof.
  intros Hi Hall. unfold process_token.
  replace (i =? 0)%nat with false by (symmetry; apply Nat.eqb_neq; lia).
  change (results (fresh_temp st)) with (results st).
  rewrite (all_dead_loop i t (results st) 0 (fresh_temp st) Hall).
  destruct (tokenType t =? SYMBOL)%Z; simpl; rewrite andb_false_r; reflexivity.
Qed.

(** X12: once every in-flight entry is dead (or none is in flight) after
    at least one token, whatever follows changes nothing: the matcher does
    not panic, also on tokens without possibilities, makes no further
    lookup, and returns the suggestions and the position it had. *)
Theorem dead_end_is_final pre post s :
  pre <> [] ->
  run_tokens SYMBOL varnam pre = Some s ->
  Forall (fun x => Weight x = (-1)%Z) (results s) ->
  exists s' r r',
    run_tokens SYMBOL varnam (pre ++ post) = Some s'
    /\ results s' = results s
    /\ searched s' = searched s
    /\ getFromDictionary SYMBOL varnam pre = Some r
    /\ getFromDictionary SYMBOL varnam (pre ++ post) = Some r'
    /\ sugs r' = sugs r
    /\ longestMatchPosition r' = longestMatchPosition r.
Proof.
  intros Hne Hrun Hall.
  assert (Hlen : 0 < length pre) by (destruct pre; [congruence | simpl; lia]).
  destruct (for_range_total (process_token SYMBOL varnam)
              (fun n s' => 0 < n /\ results s' = results s /\ searched s' = searched s
                           /\ foundPosition s' = foundPosition s
                           /\ foundDictWords s' = foundDictWords s)
              post (length pre) s) as (s' & Hpost & _ & Hr & Hs & Hp & Hf).
  { split_and!; [exact Hlen | reflexivity..]. }
  { intros k t s0 _ (Hpos & Hr & Hs & Hp & Hf).
    exists (fresh_temp s0). split.
    - apply process_token_all_dead; [lia | rewrite Hr; exact Hall].
    - split_and!; [lia | assumption..]. }
  assert (Hrun' : run_tokens SYMBOL varnam (pre ++ post) = Some s').
  { rewrite run_tokens_app, Hrun. exact Hpost. }
  destruct (getFromDictionary_run SYMBOL varnam pre s Hrun Hne) as (lt & _ & Hget).
  destruct (getFromDictionary_run SYMBOL varnam (pre ++ post) s' Hrun') as (lt' & _ & Hget').
  { intros Heq. apply app_eq_nil in Heq as [Heq _]. contradiction. }
  eexists s', _, _.
  split_and!; [exact Hrun' | exact Hr | exact Hs | exact Hget | exact Hget' | exact Hf | exact Hp].
Qed.

(** *** Tokens of another type *)

Lemma for_range_rel {A : Type} (R : matcher -> matcher -> Prop)
    (body1 body2 : matcher -> nat -> A -> option matcher) xs j1 j2 a b :
  R a b ->
  (forall k x a b, R a b -> outcome_rel R (body1 a (j1 + k) x) (body2 b (j2 + k) x)) ->
  outcome_rel R (for_range body1 j1 xs a) (for_range body2 j2 xs b).
Proof.
  revert j1 j2 a b. induction xs as [|x xs IH]; intros j1 j2 a b Hab Hbody; simpl.
  - exact Hab.
  - pose proof (Hbody 0 x a b Hab) as H0. rewrite !Nat.add_0_r in H0.
    destruct (body1 a j1 x) as [a'|], (body2 b j2 x) as [b'|]; simpl in H0;
      try contradiction; [|exact I].
    apply IH; [exact H0|]. intros k y a0 b0 H.
    replace (S j1 + k) with (j1 + S k) by lia.
    replace (S j2 + k) with (j2 + S k) by lia. apply Hbody. exact H.
Qed.

Lemma try_possibility_rel i i' j till a b k p :
  same_vars a b ->
  outcome_rel same_vars (try_possibility varnam i j till a k p)
                        (try_possibility varnam i' j till b k p).
Proof.
  intros H. destruct a as [ra pa fa ta sa], b as [rb pb fb tb sb].
  destruct H as ((Hr & Hp & Hf) & Ht). simpl in Hr, Hp, Hf, Ht. subst.
  unfold try_possibility.
  destruct (k =? 0)%nat; [repeat split|].
  destruct (searchDictionary varnam [till +:+ value1 p] false) as [[|hit rest]|]; simpl;
    repeat split.
Qed.

Lemma extend_candidate_rel i i' t a b j result :
  same_vars a b ->
  outcome_rel same_vars (extend_candidate varnam i t a j result)
                        (extend_candidate varnam i' t b j result).
Proof.
  intros H. destruct a as [ra pa fa ta sa], b as [rb pb fb tb sb].
  destruct H as ((Hr & Hp & Hf) & Ht). simpl in Hr, Hp, Hf, Ht. subst.
  unfold extend_candidate.
  destruct (Weight result =? -1)%Z; [repeat split|].
  destruct (token t !! 0%nat) as [p0|]; [|exact I].
  cbn [results]. destruct (rb !! j) as [cur|]; [|exact I].
  cbn [Word LearnedOn Weight].
  destruct (searchDictionary varnam [Word cur +:+ value1 p0] false) as [[|hit rest]|];
    [| |exact I].
  - apply for_range_rel; [repeat split|].
    intros. apply try_possibility_rel. assumption.
  - apply for_range_rel; [repeat split|].
    intros. apply try_possibility_rel. assumption.
Qed.

Lemma process_token_rel i i' t a b :
  0 < i -> 0 < i' -> agree a b ->
  outcome_rel agree (process_token SYMBOL varnam a i t) (process_token SYMBOL varnam b i' t).
Proof.
  intros Hi Hi' (Hr & Hp & Hf). unfold process_token.
  replace (i =? 0)%nat with false by (symmetry; apply Nat.eqb_neq; lia).
  replace (i' =? 0)%nat with false by (symmetry; apply Nat.eqb_neq; lia).
  replace (0 <? i)%nat with true by (symmetry; apply Nat.ltb_lt; lia).
  replace (0 <? i')%nat with true by (symmetry; apply Nat.ltb_lt; lia).
  assert (Hfresh : same_vars (fresh_temp a) (fresh_temp b)).
  { split; [split_and!|]; simpl; try assumption. reflexivity. }
  assert (Hinner : outcome_rel same_vars
            (if (tokenType t =? SYMBOL)%Z
             then for_range (extend_candidate varnam i t) 0 (results (fresh_temp a))
                            (fresh_temp a)
             else Some (fresh_temp a))
            (if (tokenType t =? SYMBOL)%Z
             then for_range (extend_candidate varnam i' t) 0 (results (fresh_temp b))
                            (fresh_temp b)
             else Some (fresh_temp b))).
  { destruct (tokenType t =? SYMBOL)%Z; [|exact Hfresh].
    change (results (fresh_temp a)) with (results a).
    change (results (fresh_temp b)) with (results b). rewrite <- Hr.
    apply for_range_rel; [exact Hfresh|].
    intros. apply extend_candidate_rel. assumption. }
  destruct (if (tokenType t =? SYMBOL)%Z
            then for_range (extend_candidate varnam i t) 0 (results (fresh_temp a))
                           (fresh_temp a)
            else Some (fresh_temp a)) as [a1|];
    destruct (if (tokenType t =? SYMBOL)%Z
              then for_range (extend_candidate varnam i' t) 0 (results (fresh_temp b))
                             (fresh_temp b)
              else Some (fresh_temp b)) as [b1|];
    simpl in Hinner; try contradiction; [|exact I].
  destruct Hinner as ((Hr1 & Hp1 & Hf1) & Ht1). rewrite Ht1.
  destruct (true && (0 <? length (tempFoundDictWords b1))%nat); simpl.
  - split_and!; simpl; [exact Hr1 | reflexivity | reflexivity].
  - split_and!; assumption.
Qed.

Lemma process_token_other st i t :
  0 < i -> tokenType t <> SYMBOL ->
  process_token SYMBOL varnam st i t = Some (fresh_temp st).
Proof.
  intros Hi Hty. unfold process_token. apply Z.eqb_neq in Hty. rewrite Hty.
  simpl. rewrite andb_false_r. reflexivity.
Qed.

Lemma getFromDictionary_last tokens :
  getFromDictionary SYMBOL varnam tokens
  = match run_tokens SYMBOL varnam tokens, last tokens with
    | Some st, Some lastToken =>
        Some (mkDictionaryResult (foundDictWords st)
                (foundPosition st =? position lastToken)%Z (foundPosition st))
    | _, _ => None
    end.
Proof.
  unfold getFromDictionary. rewrite Nat.sub_1_r, <- last_lookup.
  destruct (run_tokens SYMBOL varnam tokens); reflexivity.
Qed.

(** X13: a token of another type than SYMBOL that is not the first token
    is invisible to the matcher: with or without it, the matcher panics on
    the same inputs and otherwise returns the same suggestions and the same
    position; when the token is not the last one either, the whole result
    is the same. *)
Theorem other_token_is_skipped pre t post :
  pre <> [] ->
  tokenType t <> SYMBOL ->
  outcome_rel agree (run_tokens SYMBOL varnam (pre ++ t :: post))
                    (run_tokens SYMBOL varnam (pre ++ post))
  /\ sugs <$> getFromDictionary SYMBOL varnam (pre ++ t :: post)
     = sugs <$> getFromDictionary SYMBOL varnam (pre ++ post)
  /\ longestMatchPosition <$> getFromDictionary SYMBOL varnam (pre ++ t :: post)
     = longestMatchPosition <$> getFromDictionary SYMBOL varnam (pre ++ post)
  /\ (post <> [] ->
      getFromDictionary SYMBOL varnam (pre ++ t :: post)
      = getFromDictionary SYMBOL varnam (pre ++ post)).
Proof.
  intros Hne Hty.
  assert (Hlen : 0 < length pre) by (destruct pre; [congruence | simpl; lia]).
  assert (Hrel : outcome_rel agree (run_tokens SYMBOL varnam (pre ++ t :: post))
                                   (run_tokens SYMBOL varnam (pre ++ post))).
  { rewrite !run_tokens_app.
    destruct (run_tokens SYMBOL varnam pre) as [s|]; [|exact I].
    simpl. rewrite (process_token_other s (length pre) t Hlen Hty).
    apply for_range_rel; [split_and!; reflexivity|].
    intros k x a b Hab. apply process_token_rel; [lia | lia | exact Hab]. }
  assert (Hlast1 : exists l1, last (pre ++ t :: post) = Some l1).
  { apply last_is_Some. intros Heq. apply app_eq_nil in Heq as [Heq _]. contradiction. }
  assert (Hlast2 : exists l2, last (pre ++ post) = Some l2).
  { apply last_is_Some. intros Heq. apply app_eq_nil in Heq as [Heq _]. contradiction. }
  destruct Hlast1 as [l1 Hl1]. destruct Hlast2 as [l2 Hl2].
  split; [exact Hrel|].
  rewrite !getFromDictionary_last, Hl1, Hl2.
  destruct (run_tokens SYMBOL varnam (pre ++ t :: post)) as [sa|],
           (run_tokens SYMBOL varnam (pre ++ post)) as [sb|];
    simpl in Hrel; try contradiction; [|split_and!; reflexivity].
  destruct Hrel as (_ & Hp & Hf). simpl. rewrite Hp, Hf.
  split_and!; [reflexivity | reflexivity |].
  intros Hpost. destruct (last post) as [y|] eqn:Hy.
  - rewrite last_app_cons, last_cons, Hy in Hl1. rewrite last_app, Hy in Hl2.
    congruence.
  - apply last_None in Hy. contradiction.
Qed.
End matcher_more.

(** ** The candidates of an exact search *)

(** X14: with [all] false, only the set of candidates counts: two
    non-empty lists with the same elements, in any order and with any
    repetitions, give the same result. *)
Theorem exact_search_ignores_order (varnam : Varnam) (search search' : list string) :
  search <> [] -> search' <> [] ->
  (forall c, c ∈ search <-> c ∈ search') ->
  searchDictionary varnam search false = searchDictionary varnam search' false.
Proof.
  intros Hne Hne' Hsame. unfold searchDictionary.
  destruct (search !! 0%nat) as [w0|] eqn:H0;
    [|destruct search; [congruence | discriminate]].
  destruct (search' !! 0%nat) as [w0'|] eqn:H0';
    [|destruct search'; [congruence | discriminate]].
  rewrite (exact_vals search w0 H0), (exact_vals search' w0' H0').
  unfold sql_select. f_equal. f_equal. f_equal.
  apply filter_ext. intros r.
  destruct (where_likes search true (w_word r)) eqn:Hw.
  - symmetry. apply where_likes_true. apply where_likes_true in Hw as (c & Hc & Hl).
    exists c. split; [apply Hsame; exact Hc | exact Hl].
  - destruct (where_likes search' true (w_word r)) eqn:Hw'; [|reflexivity].
    apply where_likes_true in Hw' as (c & Hc & Hl).
    assert (Ht : where_likes search true (w_word r) = true).
    { apply where_likes_true. exists c. split; [apply Hsame; exact Hc | exact Hl]. }
    congruence.
Qed.

(** ** What the matcher is sure to find *)

Lemma join_snoc (choice : list Symbol) (p : Symbol) :
  join (choice ++ [p]) = join choice +:+ value1 p.
Proof. unfold join. rewrite fold_left_app. reflexivity. Qed.

Section matcher_forward.
Variable SYMBOL : Z.
Variable varnam : Varnam.

(** A possibility other than the first whose lookup succeeds leaves its
    first hit in the found list and a fresh live entry at the end of the
    in-flight list. *)
Lemma try_possibilities_forward i j till ps k0 st st' m p h :
  for_range (try_possibility varnam i j till) k0 ps st = Some st' ->
  ps !! m = Some p -> k0 + m <> 0 ->
  first_hit varnam (till +:+ value1 p) h ->
  h ∈ tempFoundDictWords st'
  /\ exists idx,
      length (results st) <= idx
      /\ results st' !! idx = Some (mkSuggestion (till +:+ value1 p) 0 0).
Proof.
  revert k0 st m. induction ps as [|q ps IH]; intros k0 st m Hrun Hm Hne Hfh;
    [inversion Hm|].
  simpl in Hrun.
  destruct (try_possibility varnam i j till st k0 q) as [st1|] eqn:Hb; [|discriminate].
  destruct m as [|m].
  - simpl in Hm. injection Hm as ->. rewrite Nat.add_0_r in Hne.
    unfold try_possibility in Hb. apply Nat.eqb_neq in Hne. rewrite Hne in Hb.
    destruct Hfh as [rest Hq]. rewrite Hq in Hb. injection Hb as <-.
    destruct (try_possibilities_spec varnam i j till ps (S k0) _ st' Hrun)
      as (new & _ & hits & Hr & _ & Ht & _).
    simpl in Hr, Ht. split.
    + rewrite Ht. apply elem_of_app. left. apply elem_of_app. right. left.
    + exists (length (results st)). split; [lia|].
      rewrite Hr. apply lookup_app_l_Some. apply list_lookup_middle. reflexivity.
  - simpl in Hm.
    assert (Hlen : length (results st) <= length (results st1)).
    { assert (Hone : for_range (try_possibility varnam i j till) k0 [q] st = Some st1)
        by (simpl; rewrite Hb; reflexivity).
      destruct (try_possibilities_spec varnam i j till [q] k0 st st1 Hone)
        as (new & _ & _ & Hr & _).
      rewrite Hr, length_app. lia. }
    destruct (IH (S k0) st1 m Hrun Hm) as (Hin & idx & Hidx & Hlook); [lia | exact Hfh |].
    split; [exact Hin|]. exists idx. split; [lia | exact Hlook].
Qed.

(** One iteration for a live entry: a possibility whose lookup succeeds
    leaves its first hit in the found list and a live entry with the
    extended word, at the index of the iteration or at the end of the
    list. *)
Lemma extend_candidate_forward i t st j result st' m p h :
  Weight result <> (-1)%Z ->
  results st !! j = Some result ->
  extend_candidate varnam i t st j result = Some st' ->
  token t !! m = Some p ->
  first_hit varnam (Word result +:+ value1 p) h ->
  h ∈ tempFoundDictWords st'
  /\ exists idx x',
      results st' !! idx = Some x'
      /\ (idx = j \/ length (results st) <= idx)
      /\ Weight x' <> (-1)%Z
      /\ Word x' = Word result +:+ value1 p.
Proof.
  intros Hlive Hcur Hrun Hm Hfh. unfold extend_candidate in Hrun.
  pose proof Hlive as Hlive'. apply Z.eqb_neq in Hlive'. rewrite Hlive', Hcur in Hrun.
  destruct (token t !! 0%nat) as [p0|] eqn:Hp0; [|discriminate].
  cbn [Word LearnedOn Weight] in Hrun.
  assert (Hj : j < length (results st)) by (eapply lookup_lt_Some; exact Hcur).
  destruct m as [|m].
  - rewrite Hp0 in Hm. injection Hm as ->.
    destruct Hfh as [rest Hq]. rewrite Hq in Hrun.
    destruct (try_possibilities_spec varnam i j (Word result) (token t) 0 _ st' Hrun)
      as (new & _ & hits & Hr & _ & Ht & _).
    simpl in Hr, Ht. split.
    + rewrite Ht. apply elem_of_app. left. apply elem_of_app. right. left.
    + exists j, (mkSuggestion (Word result +:+ value1 p) (Weight result) (LearnedOn result)).
      split_and!; [| left; reflexivity | exact Hlive | reflexivity].
      rewrite Hr. apply lookup_app_l_Some. apply list_lookup_insert_eq. exact Hj.
  - destruct (searchDictionary varnam [Word result +:+ value1 p0] false)
      as [[|hit rest]|]; [| |discriminate];
      destruct (try_possibilities_forward i j (Word result) (token t) 0 _ st' (S m) p h
                  Hrun Hm ltac:(lia) Hfh) as (Hin & idx & Hidx & Hlook);
      (split; [exact Hin|]);
      exists idx, (mkSuggestion (Word result +:+ value1 p) 0 0);
      (split_and!; [exact Hlook | right | discriminate | reflexivity]);
      simpl in Hidx; rewrite ?length_insert in Hidx; exact Hidx.
Qed.

(** The loop over the in-flight list: for every entry that was live and
    every possibility of the token whose lookup succeeds, the first hit is
    in the found list and a live entry carries the extended word. *)
Lemma candidates_forward i t st0 s' k y m p h :
  for_range (extend_candidate varnam i t) 0 (results st0) st0 = Some s' ->
  results st0 !! k = Some y -> Weight y <> (-1)%Z ->
  token t !! m = Some p ->
  first_hit varnam (Word y +:+ value1 p) h ->
  h ∈ tempFoundDictWords s'
  /\ exists x', x' ∈ results s' /\ Weight x' <> (-1)%Z
                /\ Word x' = Word y +:+ value1 p.
Proof.
  intros Hrun Hk Hlive Hm Hfh.
  pose (P := fun (j : nat) (s : matcher) =>
    cand_inv varnam i t st0 j s
    /\ (k < j ->
        h ∈ tempFoundDictWords s
        /\ exists idx x',
            results s !! idx = Some x'
            /\ (idx < j \/ length (results st0) <= idx)
            /\ Weight x' <> (-1)%Z
            /\ Word x' = Word y +:+ value1 p)).
  assert (Hend : P (0 + length (results st0)) s').
  { apply (for_range_inv (extend_candidate varnam i t) P (results st0) 0 st0 s');
      [| |exact Hrun].
    - split; [apply cand_inv_init | lia].
    - intros j x s s1 Hx (Hinv & Hdone) Hb. simpl in *.
      pose proof (cand_inv_step varnam i t st0 j x s s1 Hx Hinv Hb) as Hinv1.
      pose proof (cand_inv_length varnam i t st0 j s Hinv) as Hlen.
      assert (Hjn : j < length (results st0)) by (eapply lookup_lt_Some; exact Hx).
      assert (Hsj : results s !! j = Some x).
      { destruct Hinv as (H1 & _). apply H1; [exact Hx | lia]. }
      split; [exact Hinv1|]. intros Hkj.
      destruct (decide (k = j)) as [-> | Hne].
      + rewrite Hx in Hk. injection Hk as ->.
        destruct (extend_candidate_forward i t s j y s1 m p h Hlive Hsj Hb Hm Hfh)
          as (Hin & idx & x' & Hlook & Hidx & Hw & Hword).
        split; [exact Hin|]. exists idx, x'.
        split_and!; [exact Hlook | destruct Hidx; [left | right]; lia | exact Hw | exact Hword].
      + destruct Hdone as (Hin & idx & x' & Hlook & Hidx & Hw & Hword); [lia|].
        destruct (Z.eq_dec (Weight x) (-1)%Z) as [Hd | Hl].
        * rewrite (extend_candidate_dead varnam i t s j x Hd) in Hb. injection Hb as <-.
          split; [exact Hin|]. exists idx, x'.
          split_and!; [exact Hlook | destruct Hidx; [left | right]; lia | exact Hw | exact Hword].
        * destruct (extend_candidate_live varnam i t s j x s1 Hl Hb)
            as (p0 & cur & w & new & evs & hits & _ & _ & Hr & _ & _ & _ & Ht & _).
          split; [rewrite Ht; apply elem_of_app; left; exact Hin|].
          exists idx, x'.
          split_and!; [| destruct Hidx; [left | right]; lia | exact Hw | exact Hword].
          rewrite Hr. apply lookup_app_l_Some.
          rewrite list_lookup_insert_ne by lia. exact Hlook. }
  destruct Hend as (_ & Hdone). simpl in Hdone.
  destruct Hdone as (Hin & idx & x' & Hlook & _ & Hw & Hword).
  { eapply lookup_lt_Some. exact Hk. }
  split; [exact Hin|]. exists x'.
  split_and!; [eapply list_elem_of_lookup_2; exact Hlook | exact Hw | exact Hword].
Qed.

Lemma process_token_forward st i t st' y m p h :
  0 < i -> tokenType t = SYMBOL ->
  process_token SYMBOL varnam st i t = Some st' ->
  y ∈ results st -> Weight y <> (-1)%Z ->
  token t !! m = Some p ->
  first_hit varnam (Word y +:+ value1 p) h ->
  h ∈ foundDictWords st'
  /\ foundPosition st' = position t
  /\ exists x', x' ∈ results st' /\ Weight x' <> (-1)%Z
                /\ Word x' = Word y +:+ value1 p.
Proof.
  intros Hi Hty Hstep Hy Hlive Hm Hfh.
  destruct (process_token_symbol_loop SYMBOL varnam st i t st' Hi Hty Hstep)
    as (s1 & Hloop & Hr & _ & Hcommit).
  apply list_elem_of_lookup in Hy as [k Hk].
  destruct (candidates_forward i t (fresh_temp st) s1 k y m p h Hloop Hk Hlive Hm Hfh)
    as (Hin & x' & Hx' & Hw & Hword).
  destruct Hcommit as [(Hnil & _) | (_ & Hp & Hf)].
  - rewrite Hnil in Hin. inversion Hin.
  - rewrite Hf, Hr. split_and!; [exact Hin | exact Hp |].
    exists x'. split_and!; assumption.
Qed.

(** X15: let every token be of type SYMBOL, let [choice] pick one
    possibility of every token, and let the exact lookup of what the first
    [k] picks spell succeed for every [k] from 2 to the number of tokens,
    of which there are at least 2.  Then the matcher returns, recording
    the position of the last token, and the first row of the exact lookup
    of the whole spelling is among its suggestions. *)
Theorem stored_path_is_found tokens choice :
  Forall2 (fun t p => tokenType t = SYMBOL /\ p ∈ token t) tokens choice ->
  2 <= length tokens ->
  (forall k, 2 <= k <= length tokens ->
     exists h, first_hit varnam (join (take k choice)) h) ->
  exists r lastToken h,
    getFromDictionary SYMBOL varnam tokens = Some r
    /\ last tokens = Some lastToken
    /\ longestMatchPosition r = position lastToken
    /\ exactMatch r = true
    /\ h ∈ sugs r
    /\ first_hit varnam (join choice) h.
Proof.
  intros Hchoice Hlen Hstored.
  pose (P := fun (n : nat) (s : matcher) =>
    (1 <= n -> exists x, x ∈ results s /\ Weight x <> (-1)%Z
                         /\ Word x = join (take n choice))
    /\ (2 <= n -> exists t h, tokens !! (n - 1) = Some t
                              /\ foundPosition s = position t
                              /\ h ∈ foundDictWords s
                              /\ first_hit varnam (join (take n choice)) h)).
  destruct (for_range_total (process_token SYMBOL varnam) P tokens 0 matcher_init)
    as (s & Hrun & Hlive & Hfound).
  { split; intros; lia. }
  { intros k t s0 Hk (Hl & Hf). simpl in Hl, Hf |- *.
    destruct (Forall2_lookup_l _ _ _ k t Hchoice Hk) as (p & Hp & Hty & Hpin).
    apply list_elem_of_lookup in Hpin as [m Hm].
    assert (Htot : exists s1, process_token SYMBOL varnam s0 k t = Some s1).
    { apply process_token_total. intros _ _ Hnil. rewrite Hnil in Hm. inversion Hm. }
    destruct Htot as (s1 & Hstep). exists s1. split; [exact Hstep|].
    assert (Hjoin : join (take (S k) choice) = join (take k choice) +:+ value1 p).
    { rewrite (take_S_r choice k p Hp). apply join_snoc. }
    destruct (Nat.eq_dec k 0) as [-> | Hk0].
    - split; [|intros; lia]. intros _.
      destruct (process_token_cases SYMBOL varnam s0 0 t s1 Hstep)
        as [(Hc & _) | [(_ & _ & Hr & _) | (_ & Hc & _)]]; [contradiction | | lia].
      exists (seed_of p). split_and!; [| discriminate | rewrite Hjoin; reflexivity].
      rewrite Hr. apply elem_of_app. right. rewrite map_fmap.
      apply list_elem_of_fmap_2. eapply list_elem_of_lookup_2. exact Hm.
    - destruct Hl as (x & Hx & Hw & Hword); [lia|].
      destruct (Hstored (S k)) as (h & Hfh).
      { apply lookup_lt_Some in Hk. lia. }
      rewrite Hjoin, <- Hword in Hfh.
      destruct (process_token_forward s0 k t s1 x m p h ltac:(lia) Hty Hstep Hx Hw Hm Hfh)
        as (Hin & Hpos & x' & Hx' & Hw' & Hword').
      split.
      + intros _. exists x'. split_and!; [exact Hx' | exact Hw' |].
        rewrite Hword', Hjoin, Hword. reflexivity.
      + intros _. exists t, h. replace (S k - 1) with k by lia.
        split_and!; [exact Hk | exact Hpos | exact Hin |].
        rewrite Hjoin, <- Hword. exact Hfh. }
  simpl in Hfound. destruct (Hfound Hlen) as (t & h & Ht & Hpos & Hin & Hfh).
  assert (Hne : tokens <> []) by (intros ->; simpl in Hlen; lia).
  destruct (getFromDictionary_run SYMBOL varnam tokens s Hrun Hne) as (lt & Hlast & Hget).
  assert (Hlt : lt = t).
  { rewrite last_lookup in Hlast. replace (pred (length tokens)) with (length tokens - 1) in Hlast by lia.
    congruence. }
  subst lt.
  rewrite take_ge in Hfh by (rewrite <- (Forall2_length _ _ _ Hchoice); lia).
  eexists _, t, h. split; [exact Hget|]. simpl.
  split_and!; [exact Hlast | exact Hpos | apply Z.eqb_eq; exact Hpos | exact Hin | exact Hfh].
Qed.
End matcher_forward.

(** * More examples *)

(** The exact lookup of ["ab"], a stored word, in the example store. *)
Lemma exact_lookup_unique_witness :
  searchDictionary ex_store ["ab"] false = Some [mkSuggestion "ab" 3 0].
Proof.
  destruct (exact_lookup_unique ex_store "ab") as (rs & Hrs & _ & _ & Hrow);
    [apply (bool_decide_unpack _); vm_compute; exact I | reflexivity..|].
  rewrite Hrs. f_equal. apply (Hrow (mkWord 1 "ab" 3 None)); [left | reflexivity].
Defined.

(** The prefix lookup of ["a"]: only the learnt ["ax"] continues it. *)
Lemma prefix_lookup_literal_witness :
  exists rs, searchDictionary ex_store ["a"] true = Some rs
             /\ forall s, s ∈ rs -> (0 < LearnedOn s)%Z.
Proof.
  destruct (prefix_lookup_literal ex_store "a") as (rs & Hrs & _ & _ & Hall);
    [reflexivity|].
  exists rs. split; [exact Hrs|].
  intros s Hs. destruct (Hall s Hs) as (r & _ & _ & _ & _ & Hpos). exact Hpos.
Defined.

(** The in-flight list after the three example tokens. *)
Lemma inflight_weights_are_flags_witness :
  exists s, run_tokens ex_symbol ex_store [ex_tok_ab; ex_tok_qxb; ex_tok_c] = Some s
            /\ forall x, x ∈ results s ->
                 (Weight x = 0%Z \/ Weight x = (-1)%Z) /\ LearnedOn x = 0%Z.
Proof.
  eexists. split; [vm_compute; reflexivity|].
  apply (inflight_weights_are_flags ex_symbol ex_store [ex_tok_ab; ex_tok_qxb; ex_tok_c]).
  vm_compute. reflexivity.
Defined.

Lemma inflight_words_are_spelled_witness :
  exists s, run_tokens ex_symbol ex_store [ex_tok_ab; ex_tok_qxb] = Some s
            /\ forall x, x ∈ results s -> Weight x <> (-1)%Z ->
                 Word x ∈ spellings ex_symbol [ex_tok_ab; ex_tok_qxb].
Proof.
  eexists. split; [vm_compute; reflexivity|].
  intros x Hx.
  apply (inflight_words_are_spelled ex_symbol ex_store [ex_tok_ab; ex_tok_qxb] _
           ltac:(vm_compute; reflexivity) x Hx).
Defined.

Lemma suggestions_match_spellings_witness :
  exists r, getFromDictionary ex_symbol ex_store [ex_tok_ab; ex_tok_qxb; ex_tok_c] = Some r
            /\ ((sugs r = [] /\ longestMatchPosition r = 0%Z)
                \/ (sugs r <> []
                    /\ exists i t, 0 < i
                         /\ [ex_tok_ab; ex_tok_qxb; ex_tok_c] !! i = Some t
                         /\ longestMatchPosition r = position t)).
Proof.
  eexists. split; [vm_compute; reflexivity|].
  destruct (suggestions_match_spellings ex_symbol ex_store [ex_tok_ab; ex_tok_qxb; ex_tok_c] _
              ltac:(vm_compute; reflexivity)) as [Hl | (Hne & i & t & Hi & Ht & _ & Hp & _)].
  - left. exact Hl.
  - right. split; [exact Hne|]. exists i, t. split_and!; assumption.
Defined.

Lemma exact_match_spans_input_witness :
  exists q, q ∈ spellings ex_symbol [ex_tok_ab; ex_tok_qxb; ex_tok_c]
            /\ first_hit ex_store q (mkSuggestion "axc" 2 0).
Proof.
  apply (exact_match_spans_input ex_symbol ex_store [ex_tok_ab; ex_tok_qxb; ex_tok_c]
           (mkDictionaryResult [mkSuggestion "axc" 2 0; mkSuggestion "abc" 2 0] true 2)).
  - apply (bool_decide_unpack _). vm_compute. exact I.
  - vm_compute. reflexivity.
  - reflexivity.
  - discriminate.
  - left.
Defined.

(** After ["a"|"b"] and ["z"] every entry is dead: a token without
    possibilities and a further token change nothing. *)
Lemma dead_end_is_final_witness :
  exists r, getFromDictionary ex_symbol ex_store [ex_tok_ab; ex_tok_z; ex_tok_none; ex_tok_c]
            = Some r
            /\ sugs r = [].
Proof.
  destruct (dead_end_is_final ex_symbol ex_store [ex_tok_ab; ex_tok_z] [ex_tok_none; ex_tok_c]
              (default matcher_init (run_tokens ex_symbol ex_store [ex_tok_ab; ex_tok_z])))
    as (s' & r & r' & _ & _ & _ & Hr & Hr' & Hsugs & _).
  - discriminate.
  - vm_compute. reflexivity.
  - vm_compute. repeat constructor.
  - exists r'. split; [exact Hr'|]. rewrite Hsugs.
    assert (Hr0 : getFromDictionary ex_symbol ex_store [ex_tok_ab; ex_tok_z]
                  = Some (mkDictionaryResult [] false 0)) by (vm_compute; reflexivity).
    rewrite Hr0 in Hr. injection Hr as <-. reflexivity.
Defined.

(** A token of another type between the second and the third example
    token. *)
Lemma other_token_is_skipped_witness :
  getFromDictionary ex_symbol ex_store [ex_tok_ab; ex_tok_qxb; ex_tok_dash; ex_tok_c]
  = getFromDictionary ex_symbol ex_store [ex_tok_ab; ex_tok_qxb; ex_tok_c].
Proof.
  destruct (other_token_is_skipped ex_symbol ex_store [ex_tok_ab; ex_tok_qxb] ex_tok_dash
              [ex_tok_c]) as (_ & _ & _ & Heq); [discriminate | vm_compute; discriminate |].
  apply Heq. discriminate.
Defined.

Lemma exact_search_ignores_order_witness :
  searchDictionary ex_store ["ab"; "b"; "ab"] false
  = searchDictionary ex_store ["b"; "ab"] false.
Proof.
  apply exact_search_ignores_order; [discriminate | discriminate |].
  intros c. rewrite !elem_of_cons. tauto.
Defined.

(** ["a"], ["ax"] and ["axc"]: the second and the third are stored. *)
Lemma stored_path_is_found_witness :
  exists r h,
    getFromDictionary ex_symbol ex_store [ex_tok_ab; ex_tok_qxb; ex_tok_c] = Some r
    /\ exactMatch r = true
    /\ h ∈ sugs r
    /\ first_hit ex_store "axc" h.
Proof.
  destruct (stored_path_is_found ex_symbol ex_store [ex_tok_ab; ex_tok_qxb; ex_tok_c]
              [mkSymbol "a"; mkSymbol "x"; mkSymbol "c"])
    as (r & lt & h & Hget & _ & _ & Hexact & Hin & Hfh).
  - repeat constructor.
  - simpl. lia.
  - intros k Hk. simpl in Hk.
    assert (Hcases : k = 2 \/ k = 3) by lia.
    destruct Hcases as [-> | ->]; eexists; eexists; vm_compute; reflexivity.
  - exists r, h. split_and!; assumption.
Defined.

(** The trailing lookup of ["chin"] in the example store is ordered. *)
Lemma getTrailing_spec_witness :
  StronglySorted (desc Weight) (getTrailingFromPatternDictionary ex_floor ex_store "chin")
  /\ length (getTrailingFromPatternDictionary ex_floor ex_store "chin") <= 10.
Proof.
  destruct (getTrailing_spec ex_floor ex_store "chin") as (Hlen & _ & _ & _ & Hsorted).
  split; [|exact Hlen]. apply Hsorted; [vm_compute; discriminate | reflexivity].
Defined.

(** * The pattern lookups, as they are *)

Lemma prefix_nocase_refl (p : string) : prefix_nocase p p = true.
Proof.
  induction p as [|c p IH]; [reflexivity|].
  simpl. rewrite Ascii.eqb_refl, IH. reflexivity.
Qed.

(** C6 (amended): [getTrailingFromPatternDictionary] returns only words
    that a row of [patterns_content] refers to whose stored pattern
    matches [pattern || '%'] under LIKE: the stored pattern has the given
    one as a prefix and may be equal to it, since [%] also stands for no
    character (for a given pattern without [%] and [_], the prefix is up
    to the case of ASCII letters).  The returned suggestions are the scans
    of rows ordered by confidence descending, and there are at most 10. *)
Theorem getTrailing_prefix_or_equal (floor : Z) (varnam : Varnam) (pattern : string) :
  exists rows,
    getTrailingFromPatternDictionary floor varnam pattern = map (scan_trailing floor) rows
    /\ StronglySorted (desc w_confidence) rows
    /\ length rows <= 10
    /\ (forall r, r ∈ rows ->
          r ∈ words varnam
          /\ exists pr, pr ∈ patterns_content varnam
                        /\ p_word_id pr = w_id r
                        /\ sql_like (p_pattern pr) (pattern +:+ "%") = true)
    /\ (literal pattern = true ->
        (forall stored, sql_like stored (pattern +:+ "%") = prefix_nocase pattern stored)
        /\ sql_like pattern (pattern +:+ "%") = true).
Proof.
  exists (sql_select (id_in_trailing varnam pattern) w_confidence 10 (words varnam)).
  split_and!.
  - reflexivity.
  - apply sql_select_sorted.
  - apply sql_select_length.
  - intros r Hr. apply sql_select_elem in Hr as [Hr Hc]. split; [exact Hr|].
    apply id_in_trailing_iff in Hc as (pr & Hpr & Hid & Hl).
    exists pr. split_and!; assumption.
  - intros Hlit. split.
    + intros stored. apply like_literal_percent. exact Hlit.
    + unfold sql_like. rewrite (like_literal_percent pattern pattern Hlit).
      apply prefix_nocase_refl.
Qed.

(** C8, as stated, fails.  With a stored confidence of -50 the weight is
    -20, below the floor of 30.  A pattern row that refers to no word
    gives a suggestion with the empty word and the weight 30, which is no
    word's confidence plus the floor.  With the greatest confidence of a
    Go [int] the sum wraps around, to a negative weight. *)
Lemma pattern_weight_below_floor :
  getTrailingFromPatternDictionary ex_floor ex_store_negative "chin"
  = [mkSuggestion "w" (-20) 0]
  /\ getFromPatternDictionary ex_floor ex_store_negative "chin"
     = [mkPatternDictionarySuggestion (mkSuggestion "w" (-20) 0) 4]
  /\ (-20 < ex_floor)%Z
  /\ getFromPatternDictionary ex_floor ex_store_dangling "chin"
     = [mkPatternDictionarySuggestion (mkSuggestion EmptyString 30 0) 4]
  /\ words ex_store_dangling = []
  /\ getTrailingFromPatternDictionary ex_floor ex_store_greatest "chin"
     = [mkSuggestion "w" (int_min + 29) 0]
  /\ (int_min + 29 < ex_floor)%Z
  /\ (int_min + 29)%Z <> (int_max + ex_floor)%Z.
Proof. split_and!; try (vm_compute; reflexivity). vm_compute. discriminate. Defined.
